(** * Branch and bound for the 0/1 knapsack of retention projects

    A shallow embedding of [src/optimization/branch_and_bound.py]:
    the [Project] and [Node] records, the solver object [BranchAndBound]
    with its counters, [calculate_bound], [is_feasible], [should_prune],
    [update_best_solution], the best-first loop of [solve] over a
    [heapq] priority queue, [_prepare_result], [_get_metrics],
    [greedy_heuristic] and [validate_solution]; of two of its callers,
    [run_sensitivity_analysis] of [app/dashboard_optimization.py] and
    the project list of [create_retention_projects] of
    [src/optimization/prepare_optimization_data.py].

    Numbers.  Costs, impacts, budgets and bounds are Python floats; the
    specification fixes their meaning as real arithmetic, and they are
    modelled by exact rationals [Q] (equality is [Qeq], written [==]).
    Counters are natural numbers.  Printing ([verbose]) is not modelled.

    Exceptions.  A Python exception is a value [Raise e] of the result
    type [res]; a float division by zero raises [ZeroDivisionError].

    State.  The methods that update the solver object return the updated
    object; [solve] returns its result together with the object as the
    call leaves it, so that a second call on the same object can be
    expressed.

    Time.  [time.time()] is read twice by [solve]; the two readings are
    arguments of the model.

    The file has three parts: the program, the vocabulary in which its
    properties are stated, and the properties. *)

From Stdlib Require Import QArith Qabs Lia Lqa.
From stdpp Require Import base list list_numbers strings.

(** * The program *)

(** ** Rational comparisons as booleans *)

Definition Qleb (x y : Q) : bool := Qle_bool x y.
Definition Qltb (x y : Q) : bool := negb (Qle_bool y x).

(** ** Exceptions *)

Inductive exn : Type :=
| ValueError (msg : string)
| ZeroDivisionError
| IndexError.

Inductive res (A : Type) : Type :=
| Ok (a : A)
| Raise (e : exn).

Arguments Ok {A} a.
Arguments Raise {A} e.

(** Sequencing: the first exception raised ends the computation. *)
#[global] Instance res_ret : MRet res := fun _ a => Ok a.
#[global] Instance res_bind : MBind res := fun _ _ k m =>
  match m with
  | Ok a => k a
  | Raise e => Raise e
  end.

(** Float division: [x / y], raising on a zero divisor. *)
Definition py_div (x y : Q) : res Q :=
  if Qeq_bool y 0 then Raise ZeroDivisionError else Ok (x / y)%Q.

(** ** Data model *)

(** [Project]: [efficiency] is the field computed by [__post_init__]
    from [cost] and [impact]; it is never reassigned, so it is a
    function of the record. *)
Record Project : Type := mkProject {
  id : Z;
  name : string;
  cost : Q;
  impact : Q;
  category : string
}.

Definition efficiency (p : Project) : Q :=
  if Qltb 0 (cost p) then (impact p / cost p)%Q else 0%Q.

Record Node : Type := mkNode {
  level : nat;
  selected : list Z;
  total_cost : Q;
  total_impact : Q;
  bound : Q
}.

(** [Node.__lt__]: [self.bound > other.bound]. *)
Definition node_lt (self other : Node) : bool :=
  Qltb (bound other) (bound self).

Definition set_bound (node : Node) (b : Q) : Node :=
  mkNode (level node) (selected node) (total_cost node) (total_impact node) b.

(** ** [list.sort(key=lambda p: p.efficiency, reverse=True)]

    Python's sort is stable, also with [reverse=True]: projects of equal
    efficiency keep their relative order.  The stable sorted arrangement
    of a list is unique; it is computed here by insertion. *)

Fixpoint insert_desc (p : Project) (l : list Project) : list Project :=
  match l with
  | [] => [p]
  | q :: l' =>
      if Qltb (efficiency p) (efficiency q)
      then q :: insert_desc p l'
      else p :: q :: l'
  end.

Definition sort_by_efficiency (l : list Project) : list Project :=
  foldr insert_desc [] l.

(** ** [heapq]

    The priority queue is a Python list kept in heap order by [heapq],
    compared through [Node.__lt__].  [heappush] appends and sifts the new
    item towards the root; [heappop] removes the last item, puts it at
    the root and sifts it to a leaf and back.  Items move by exchanging
    two positions. *)

Definition exchange (heap : list Node) (i j : nat) : list Node :=
  match heap !! i, heap !! j with
  | Some x, Some y => <[j := x]> (<[i := y]> heap)
  | _, _ => heap
  end.

(** [_siftdown(heap, startpos, pos)]; [pos] strictly decreases, so
    [pos] iterations are enough. *)
Fixpoint siftdown (fuel : nat) (heap : list Node) (startpos pos : nat)
  : list Node :=
  match fuel with
  | O => heap
  | S fuel' =>
      if (startpos <? pos)%nat then
        let parentpos := ((pos - 1) / 2)%nat in
        match heap !! pos, heap !! parentpos with
        | Some newitem, Some parent =>
            if node_lt newitem parent
            then siftdown fuel' (exchange heap pos parentpos) startpos parentpos
            else heap
        | _, _ => heap
        end
      else heap
  end.

(** The loop of [_siftup]: bubble the smaller child up until a leaf is
    reached; returns the heap and the final position. *)
Fixpoint siftup_loop (fuel : nat) (heap : list Node) (pos : nat)
  : list Node * nat :=
  match fuel with
  | O => (heap, pos)
  | S fuel' =>
      let endpos := length heap in
      let childpos := (2 * pos + 1)%nat in
      if (childpos <? endpos)%nat then
        let rightpos := (childpos + 1)%nat in
        let childpos' :=
          match heap !! childpos, heap !! rightpos with
          | Some l, Some r => if negb (node_lt l r) then rightpos else childpos
          | _, _ => childpos
          end in
        siftup_loop fuel' (exchange heap pos childpos') childpos'
      else (heap, pos)
  end.

Definition siftup (heap : list Node) (pos : nat) : list Node :=
  let '(heap', pos') := siftup_loop (length heap) heap pos in
  siftdown (length heap) heap' pos pos'.

Definition heappush (heap : list Node) (item : Node) : list Node :=
  let heap' := heap ++ [item] in
  siftdown (length heap') heap' 0 (length heap' - 1).

(** [heappop]; [None] stands for the empty queue, which the loop of
    [solve] never pops. *)
Definition heappop (heap : list Node) : option (Node * list Node) :=
  match last heap with
  | None => None
  | Some lastelt =>
      match removelast heap with
      | [] => Some (lastelt, [])
      | returnitem :: rest => Some (returnitem, siftup (lastelt :: rest) 0)
      end
  end.

(** ** The solver object *)

(** [n_projects] is assigned [len(projects)] once in [__init__]; it is
    read off the list. *)
Record BranchAndBound : Type := mkBB {
  projects : list Project;
  budget : Q;
  nodes_expanded : nat;
  nodes_pruned_infeasible : nat;
  nodes_pruned_bound : nat;
  max_depth : nat;
  execution_time : Q;
  best_solution : option Node;
  best_value : Q
}.

Definition n_projects (self : BranchAndBound) : nat := length (projects self).

(** [BranchAndBound.__init__] *)
Definition init (ps : list Project) (b : Q) : res BranchAndBound :=
  match ps with
  | [] => Raise (ValueError "Lista de projetos não pode estar vazia")
  | _ :: _ =>
      if Qleb b 0 then Raise (ValueError "Orçamento deve ser positivo")
      else Ok (mkBB (sort_by_efficiency ps) b 0 0 0 0 0%Q None 0%Q)
  end.

(** [calculate_bound]: the loop over [range(node.level, n_projects)],
    here over the projects from index [node.level] on. *)
Fixpoint bound_loop (ps : list Project) (bound remaining_budget : Q) : res Q :=
  match ps with
  | [] => Ok bound
  | project :: rest =>
      if Qleb (cost project) remaining_budget then
        bound_loop rest (bound + impact project)%Q
                   (remaining_budget - cost project)%Q
      else
        fraction ← py_div remaining_budget (cost project);
        Ok (bound + impact project * fraction)%Q
  end.

Definition calculate_bound (self : BranchAndBound) (node : Node) : res Q :=
  bound_loop (drop (level node) (projects self))
             (total_impact node) (budget self - total_cost node)%Q.

Definition is_feasible (self : BranchAndBound) (node : Node) : bool :=
  Qleb (total_cost node) (budget self).

Inductive prune_reason : Type := infeasible | by_bound | none.

Definition incr_pruned_infeasible (self : BranchAndBound) : BranchAndBound :=
  mkBB (projects self) (budget self) (nodes_expanded self)
       (S (nodes_pruned_infeasible self)) (nodes_pruned_bound self)
       (max_depth self) (execution_time self)
       (best_solution self) (best_value self).

Definition incr_pruned_bound (self : BranchAndBound) : BranchAndBound :=
  mkBB (projects self) (budget self) (nodes_expanded self)
       (nodes_pruned_infeasible self) (S (nodes_pruned_bound self))
       (max_depth self) (execution_time self)
       (best_solution self) (best_value self).

(** [should_prune] returns the updated solver and the pair
    (prune?, reason). *)
Definition should_prune (self : BranchAndBound) (node : Node)
  : BranchAndBound * (bool * prune_reason) :=
  if negb (is_feasible self node) then
    (incr_pruned_infeasible self, (true, infeasible))
  else if Qleb (bound node) (best_value self) then
    (incr_pruned_bound self, (true, by_bound))
  else (self, (false, none)).

Definition update_best_solution (self : BranchAndBound) (node : Node)
  : BranchAndBound :=
  if is_feasible self node && Qltb (best_value self) (total_impact node) then
    mkBB (projects self) (budget self) (nodes_expanded self)
         (nodes_pruned_infeasible self) (nodes_pruned_bound self)
         (max_depth self) (execution_time self)
         (Some node) (total_impact node)
  else self.

(** ** [solve]: one iteration of the main loop *)

(** What became of a popped node; the source takes one of four paths. *)
Inductive action : Type :=
| PrunedInfeasible
| PrunedBound
| Leaf
| Expanded.

(** The three lines after [heappop]: count the node and record its depth. *)
Definition count_node (self : BranchAndBound) (current_node : Node)
  : BranchAndBound :=
  mkBB (projects self) (budget self) (S (nodes_expanded self))
       (nodes_pruned_infeasible self) (nodes_pruned_bound self)
       (Nat.max (max_depth self) (level current_node)) (execution_time self)
       (best_solution self) (best_value self).

(** A child gets its bound, is tested by [should_prune], and is pushed
    when it survives. *)
Definition push_child (self : BranchAndBound) (priority_queue : list Node)
  (child : Node) : res (BranchAndBound * list Node) :=
  b ← calculate_bound self child;
  let child := set_bound child b in
  let '(self, (prune, _)) := should_prune self child in
  Ok (self, if prune then priority_queue else heappush priority_queue child).

Definition left_child (current_node : Node) (project : Project) : Node :=
  mkNode (level current_node + 1)
         (selected current_node ++ [id project])
         (total_cost current_node + cost project)%Q
         (total_impact current_node + impact project)%Q
         0%Q.

Definition right_child (current_node : Node) : Node :=
  mkNode (level current_node + 1)
         (selected current_node)
         (total_cost current_node)
         (total_impact current_node)
         0%Q.

(** The body of the [while] loop for the node just popped. *)
Definition process_node (self : BranchAndBound) (priority_queue : list Node)
  (current_node : Node) : res (BranchAndBound * list Node * action) :=
  let self := count_node self current_node in
  let '(self, (prune, reason)) := should_prune self current_node in
  if prune then
    Ok (self, priority_queue,
        match reason with infeasible => PrunedInfeasible | _ => PrunedBound end)
  else if (level current_node =? n_projects self)%nat then
    Ok (update_best_solution self current_node, priority_queue, Leaf)
  else
    match projects self !! level current_node with
    | None => Raise IndexError
    | Some project =>
        '(self, priority_queue) ←
          push_child self priority_queue (left_child current_node project);
        '(self, priority_queue) ←
          push_child self priority_queue (right_child current_node);
        Ok (self, priority_queue, Expanded)
    end.

(** The [while priority_queue:] loop.  Every iteration removes a node
    and adds at most two one level deeper, so the loop ends; [fuel]
    bounds the number of iterations and [None] means it ran out, which
    [solve_loop_total] below excludes for the fuel [solve] uses. *)
Fixpoint solve_loop (fuel : nat) (self : BranchAndBound)
  (priority_queue : list Node) : option (res BranchAndBound) :=
  match fuel with
  | O => None
  | S fuel' =>
      match heappop priority_queue with
      | None => Some (Ok self)
      | Some (current_node, priority_queue) =>
          match process_node self priority_queue current_node with
          | Raise e => Some (Raise e)
          | Ok (self, priority_queue, _) => solve_loop fuel' self priority_queue
          end
      end
  end.

(** ** Results *)

Record Metrics : Type := mkMetrics {
  m_nodes_expanded : nat;
  m_nodes_pruned_total : nat;
  m_nodes_pruned_infeasible : nat;
  m_nodes_pruned_bound : nat;
  m_max_depth : nat;
  m_execution_time_seconds : Q;
  m_pruning_efficiency_pct : Q
}.

Record Solution : Type := mkSolution {
  selected_projects : list Project;
  s_total_cost : Q;
  s_total_impact : Q;
  budget_used_pct : Q;
  n_projects_selected : nat
}.

Record Details : Type := mkDetails {
  d_budget : Q;
  d_n_projects_available : nat;
  d_execution_time : Q
}.

(** The dictionary returned by [solve]: status ["no_solution"] with a
    message, or status ["optimal"] with solution and details. *)
Inductive Result : Type :=
| no_solution (message : string) (metrics : Metrics)
| optimal (solution : Solution) (metrics : Metrics) (details : Details).

Definition Qnat (n : nat) : Q := inject_Z (Z.of_nat n).

(** [_get_metrics] *)
Definition get_metrics (self : BranchAndBound) : Metrics :=
  let total_pruned :=
    (nodes_pruned_infeasible self + nodes_pruned_bound self)%nat in
  mkMetrics (nodes_expanded self) total_pruned
            (nodes_pruned_infeasible self) (nodes_pruned_bound self)
            (max_depth self) (execution_time self)
            (if (0 <? nodes_expanded self + total_pruned)%nat
             then (Qnat total_pruned
                   / Qnat (nodes_expanded self + total_pruned) * 100)%Q
             else 0%Q).

(** [p.id in self.best_solution.selected] *)
Definition id_in (p : Project) (ids : list Z) : bool :=
  existsb (Z.eqb (id p)) ids.

(** [_prepare_result]; the budget is positive after [__init__], so the
    division by it is a plain division. *)
Definition prepare_result (self : BranchAndBound) : res Result :=
  match best_solution self with
  | None =>
      Ok (no_solution "Nenhuma solução viável encontrada" (get_metrics self))
  | Some best =>
      let selected_projects :=
        filter (fun p => id_in p (selected best) = true) (projects self) in
      pct ← py_div (total_cost best) (budget self);
      Ok (optimal
            (mkSolution selected_projects (total_cost best) (total_impact best)
                        (pct * 100)%Q (length selected_projects))
            (get_metrics self)
            (mkDetails (budget self) (n_projects self) (execution_time self)))
  end.

Definition set_execution_time (self : BranchAndBound) (t : Q)
  : BranchAndBound :=
  mkBB (projects self) (budget self) (nodes_expanded self)
       (nodes_pruned_infeasible self) (nodes_pruned_bound self)
       (max_depth self) t (best_solution self) (best_value self).

Definition root : Node := mkNode 0 [] 0%Q 0%Q 0%Q.

(** Iterations that the loop can need: a node of level [l] stands for a
    subtree of [2 ^ (n + 1 - l) - 1] nodes. *)
Definition solve_fuel (self : BranchAndBound) : nat :=
  2 ^ S (n_projects self).

(** [solve]: [start_time] and [end_time] are the two readings of
    [time.time()].  The result comes with the solver object as the call
    leaves it. *)
Definition solve (self : BranchAndBound) (start_time end_time : Q)
  : option (res (Result * BranchAndBound)) :=
  match calculate_bound self root with
  | Raise e => Some (Raise e)
  | Ok b =>
      let priority_queue := heappush [] (set_bound root b) in
      match solve_loop (solve_fuel self) self priority_queue with
      | None => None
      | Some (Raise e) => Some (Raise e)
      | Some (Ok self) =>
          let self := set_execution_time self (end_time - start_time)%Q in
          match prepare_result self with
          | Raise e => Some (Raise e)
          | Ok result => Some (Ok (result, self))
          end
      end
  end.

(** ** [greedy_heuristic] *)

Fixpoint greedy_loop (sorted_projects selected : list Project)
  (total_cost total_impact budget : Q) : list Project * Q * Q :=
  match sorted_projects with
  | [] => (selected, total_cost, total_impact)
  | project :: rest =>
      if Qleb (total_cost + cost project)%Q budget then
        greedy_loop rest (selected ++ [project])
                    (total_cost + cost project)%Q
                    (total_impact + impact project)%Q budget
      else greedy_loop rest selected total_cost total_impact budget
  end.

Record Heuristic : Type := mkHeuristic {
  h_solution : Solution;
  h_execution_time_seconds : Q
}.

Definition greedy_heuristic (projects : list Project) (budget : Q)
  (start_time end_time : Q) : res Heuristic :=
  let sorted_projects := sort_by_efficiency projects in
  let '(selected, total_cost, total_impact) :=
    greedy_loop sorted_projects [] 0%Q 0%Q budget in
  pct ← py_div total_cost budget;
  Ok (mkHeuristic
        (mkSolution selected total_cost total_impact (pct * 100)%Q
                    (length selected))
        (end_time - start_time)%Q).

(** ** [validate_solution] *)

(** Python's [sum]: from 0, left to right. *)
Definition py_sum (l : list Q) : Q := foldl Qplus 0%Q l.

(** The dictionaries that [validate_solution] is given: a result of
    [solve] or one of [greedy_heuristic] (status ["heuristic"]). *)
Inductive SolutionDict : Type :=
| solve_dict (r : Result)
| greedy_dict (h : Heuristic).

(** [validate_solution]; the [projects] argument is not used by the
    source either. *)
Definition validate_solution (solution : SolutionDict)
  (projects : list Project) (budget : Q) : bool :=
  match solution with
  | solve_dict (optimal sol _ _) =>
      if Qltb budget (s_total_cost sol) then false
      else
        let calculated_impact := py_sum (impact <$> selected_projects sol) in
        if Qltb (1 # 100) (Qabs (calculated_impact - s_total_impact sol))
        then false
        else true
  | _ => false
  end.

(** ** [run_sensitivity_analysis] of [app/dashboard_optimization.py] *)

(** One row of the table of [run_sensitivity_analysis]. *)
Record SensitivityRow : Type := mkSensitivityRow {
  row_budget : Q;
  row_total_impact : Q;
  row_total_cost : Q;
  row_n_projects : nat;
  row_budget_used_pct : Q;
  row_nodes_expanded : nat;
  row_execution_time : Q
}.

(** [BranchAndBound(projects, budget)] keeps the caller's list as
    [self.projects] and sorts it in place: after the call the caller's
    list is the sorted one. *)
Definition sorted_in_place (bb : BranchAndBound) : list Project :=
  projects bb.

(** The loop of [run_sensitivity_analysis] from its [i]-th budget on;
    each iteration starts from the list as the one before left it.  A budget
    whose result is not ["optimal"] adds no row.  [clock i] gives the
    two readings of the clock in the [i]-th call of [solve]; the
    progress bar and the status text are not modelled. *)
Fixpoint sensitivity_loop (projects : list Project) (budget_range : list Q)
  (clock : nat -> Q * Q) (i : nat) (results : list SensitivityRow)
  : option (res (list SensitivityRow)) :=
  match budget_range with
  | [] => Some (Ok results)
  | budget :: rest =>
      match init projects budget with
      | Raise e => Some (Raise e)
      | Ok bb =>
          match solve bb (clock i).1 (clock i).2 with
          | None => None
          | Some (Raise e) => Some (Raise e)
          | Some (Ok (result, _)) =>
              let results :=
                match result with
                | optimal sol m _ =>
                    results ++
                    [mkSensitivityRow budget (s_total_impact sol)
                       (s_total_cost sol) (n_projects_selected sol)
                       (budget_used_pct sol) (m_nodes_expanded m)
                       (m_execution_time_seconds m)]
                | no_solution _ _ => results
                end in
              sensitivity_loop (sorted_in_place bb) rest clock (S i) results
          end
      end
  end.

(** [run_sensitivity_analysis]; [base_budget] is not used by the source
    either. *)
Definition run_sensitivity_analysis (projects : list Project)
  (base_budget : Q) (budget_range : list Q) (clock : nat -> Q * Q)
  : option (res (list SensitivityRow)) :=
  sensitivity_loop projects budget_range clock 0 [].

(** ** [create_retention_projects] of [prepare_optimization_data.py] *)

(** The list that [create_retention_projects] returns (it also prints a
    summary and writes the justifications to a file). *)
Definition retention_projects : list Project :=
  [mkProject 1 "Programa de Melhoria de Satisfação no Trabalho" 120 25
             "Engajamento";
   mkProject 2 "Iniciativa de Work-Life Balance" 80 18 "Bem-estar";
   mkProject 3 "Plano de Desenvolvimento de Carreira" 60 15 "Desenvolvimento";
   mkProject 4 "Programa de Reconhecimento e Recompensas" 50 12
             "Reconhecimento";
   mkProject 5 "Ajuste Salarial Competitivo" 200 20 "Compensação";
   mkProject 6 "Programa de Mentoria e Coaching" 40 10 "Desenvolvimento";
   mkProject 7 "Flexibilização de Horários e Home Office" 30 14 "Bem-estar";
   mkProject 8 "Treinamento e Capacitação Técnica" 70 13 "Desenvolvimento";
   mkProject 9 "Melhoria do Ambiente de Trabalho" 90 16 "Infraestrutura";
   mkProject 10 "Programa de Saúde Mental e Bem-Estar" 55 11 "Bem-estar";
   mkProject 11 "Sistema de Feedback Contínuo" 35 9 "Comunicação";
   mkProject 12 "Programa de Diversidade e Inclusão" 65 12 "Cultura";
   mkProject 13 "Benefícios Flexíveis Personalizados" 100 17 "Benefícios";
   mkProject 14 "Programa de Integração para Novos Funcionários" 45 10
             "Onboarding";
   mkProject 15 "Iniciativa de Team Building e Cultura" 40 8 "Cultura"].

(** * Vocabulary of the properties *)

(** ** Construct, then solve *)

(** [BranchAndBound(projects, budget).solve()] on a fresh solver. *)
Definition run (ps : list Project) (b : Q) (start_time end_time : Q)
  : option (res (Result * BranchAndBound)) :=
  match init ps b with
  | Raise e => Some (Raise e)
  | Ok self => solve self start_time end_time
  end.

(** What a caller of a fresh solver sees: the result, or the exception. *)
Definition returned (o : option (res (Result * BranchAndBound)))
  : option (res Result) :=
  match o with
  | Some (Ok (r, _)) => Some (Ok r)
  | Some (Raise e) => Some (Raise e)
  | None => None
  end.

(** The two records that carry an elapsed time, with the time set to 0. *)
Definition erase_time_metrics (m : Metrics) : Metrics :=
  mkMetrics (m_nodes_expanded m) (m_nodes_pruned_total m)
            (m_nodes_pruned_infeasible m) (m_nodes_pruned_bound m)
            (m_max_depth m) 0 (m_pruning_efficiency_pct m).

Definition erase_time_details (d : Details) : Details :=
  mkDetails (d_budget d) (d_n_projects_available d) 0.

(** A result without its two elapsed-time fields. *)
Definition erase_time (r : Result) : Result :=
  match r with
  | no_solution msg m => no_solution msg (erase_time_metrics m)
  | optimal s m d =>
      optimal s (erase_time_metrics m) (erase_time_details d)
  end.

Definition returned_without_time (o : option (res (Result * BranchAndBound)))
  : option (res Result) :=
  match returned o with
  | Some (Ok r) => Some (Ok (erase_time r))
  | other => other
  end.

(** The total impact that a result stands for; no solution counts 0. *)
Definition result_value (r : Result) : Q :=
  match r with
  | optimal sol _ _ => s_total_impact sol
  | no_solution _ _ => 0%Q
  end.

(** The total cost that a result stands for. *)
Definition result_cost (r : Result) : Q :=
  match r with
  | optimal sol _ _ => s_total_cost sol
  | no_solution _ _ => 0%Q
  end.

(** What [greedy_heuristic] and a fresh solver return as total impact. *)
Definition greedy_impact (ps : list Project) (b : Q) : option Q :=
  match greedy_heuristic ps b 0 1 with
  | Ok h => Some (Qred (s_total_impact (h_solution h)))
  | Raise _ => None
  end.

Definition solve_impact (ps : list Project) (b : Q) : option Q :=
  match run ps b 0 1 with
  | Some (Ok (optimal sol _ _, _)) => Some (Qred (s_total_impact sol))
  | _ => None
  end.

(** ** Selections of projects *)

Definition sum_cost (l : list Project) : Q :=
  foldr (fun p acc => cost p + acc)%Q 0%Q l.

Definition sum_impact (l : list Project) : Q :=
  foldr (fun p acc => impact p + acc)%Q 0%Q l.

(** The projects have non-negative costs and impacts. *)
Definition nonneg (ps : list Project) : Prop :=
  Forall (fun p => (0 <= cost p)%Q /\ (0 <= impact p)%Q) ps.

(** Every project has a strictly positive cost (and a non-negative
    impact): nothing is free. *)
Definition positive_costs (ps : list Project) : Prop :=
  Forall (fun p => (0 < cost p)%Q /\ (0 <= impact p)%Q) ps.

(** [s ⊆+ ps]: [s] is a subset of the projects [ps], each project taken
    at most once, in any order.  [v] is the optimum of the knapsack
    when some subset within the budget has impact [v] and none has more. *)
Definition is_optimum (ps : list Project) (b v : Q) : Prop :=
  (exists s, s ⊆+ ps /\ (sum_cost s <= b)%Q /\ (sum_impact s == v)%Q) /\
  (forall s, s ⊆+ ps -> (sum_cost s <= b)%Q -> (sum_impact s <= v)%Q).

(** Non-increasing efficiency along the list. *)
Fixpoint sorted_desc (l : list Project) : Prop :=
  match l with
  | [] => True
  | p :: l' =>
      Forall (fun q => (efficiency q <= efficiency p)%Q) l' /\ sorted_desc l'
  end.

(** ** Iterations of the loop *)

(** The instance and the incumbent are the same in [self'] as in [self]. *)
Definition frame (self self' : BranchAndBound) : Prop :=
  projects self' = projects self /\ budget self' = budget self /\
  best_solution self' = best_solution self /\
  best_value self' = best_value self.

(** The nodes a child contributes to the queue: itself with its bound
    when it survives [should_prune], nothing otherwise. *)
Definition kept (self : BranchAndBound) (child : Node) (b : Q)
  (l : list Node) : Prop :=
  (l = [] /\ (is_feasible self child = false \/ (b <= best_value self)%Q)) \/
  (l = [set_bound child b] /\
   is_feasible self child = true /\ (best_value self < b)%Q).

(** A node of level [l] stands for the subtree below it. *)
Definition weight (n : nat) (node : Node) : nat :=
  2 ^ (S n - level node) - 1.

(** The paths taken by the successive iterations of the loop. *)
Fixpoint solve_trace (fuel : nat) (self : BranchAndBound)
  (priority_queue : list Node) : list action :=
  match fuel with
  | O => []
  | S fuel' =>
      match heappop priority_queue with
      | None => []
      | Some (current_node, priority_queue) =>
          match process_node self priority_queue current_node with
          | Raise e => []
          | Ok (self, priority_queue, a) =>
              a :: solve_trace fuel' self priority_queue
          end
      end
  end.

(** ** The division of [calculate_bound] *)

(** The operands [(remaining_budget, project.cost)] of the division that
    the loop of [calculate_bound] reaches, if it reaches one: the first
    project whose cost exceeds what remains of the budget. *)
Fixpoint fraction_operands (ps : list Project) (remaining_budget : Q)
  : option (Q * Q) :=
  match ps with
  | [] => None
  | project :: rest =>
      if Qleb (cost project) remaining_budget
      then fraction_operands rest (remaining_budget - cost project)%Q
      else Some (remaining_budget, cost project)
  end.

Definition division_operands (self : BranchAndBound) (node : Node)
  : option (Q * Q) :=
  fraction_operands (drop (level node) (projects self))
                    (budget self - total_cost node)%Q.

(** ** Invariants of the search *)

(** While every project costs more than the budget [b], the incumbent
    stays empty and every node of the queue either has selected nothing
    or is over budget. *)
Definition nothing_fits_inv (b : Q) (self : BranchAndBound)
  (pq : list Node) : Prop :=
  budget self = b /\
  Forall (fun p => (b < cost p)%Q) (projects self) /\
  best_solution self = None /\ best_value self = 0%Q /\
  Forall (fun node =>
            (level node <= n_projects self)%nat /\
            (((total_cost node == 0)%Q /\ (total_impact node == 0)%Q) \/
             (b < total_cost node)%Q)) pq.


(** The sums of a node are those of a selection among the projects
    decided so far. *)
Definition consistent (ps : list Project) (node : Node) : Prop :=
  (level node <= length ps)%nat /\
  exists s1, s1 `sublist_of` take (level node) ps /\
    (total_cost node == sum_cost s1)%Q /\
    (total_impact node == sum_impact s1)%Q.

(** The selection [s] lies below the node: it agrees with the node on
    the projects decided so far, and the node's bound allows for it. *)
Definition covers (ps : list Project) (node : Node) (s : list Project)
  : Prop :=
  exists s1 s2, s = s1 ++ s2 /\
    s1 `sublist_of` take (level node) ps /\
    s2 `sublist_of` drop (level node) ps /\
    (total_cost node == sum_cost s1)%Q /\
    (total_impact node == sum_impact s1)%Q /\
    (sum_impact s <= bound node)%Q.

(** The invariant of the search: the incumbent value is attained by a
    selection within the budget, and every selection within the budget
    that is worth more lies below a node of the queue. *)
Definition search_inv (ps : list Project) (b : Q) (self : BranchAndBound)
  (pq : list Node) : Prop :=
  projects self = ps /\ budget self = b /\
  Forall (consistent ps) pq /\
  (exists s, s `sublist_of` ps /\ (sum_cost s <= b)%Q /\
             (sum_impact s == best_value self)%Q) /\
  match best_solution self with
  | Some node =>
      total_impact node = best_value self /\ (total_cost node <= b)%Q
  | None => best_value self = 0%Q
  end /\
  forall s, s `sublist_of` ps -> (sum_cost s <= b)%Q ->
            (best_value self < sum_impact s)%Q ->
            exists node, node ∈ pq /\ covers ps node s.

(** ** Instances *)

(** A solver of two projects with budget 5: the node that has included
    the first (cost 6) is over budget, and the next project costs
    nothing. *)
Definition overspent_solver : BranchAndBound :=
  mkBB [mkProject 1 "A" 6 10 ""; mkProject 2 "D" 0 100 ""] 5 0 0 0 0 0 None 0.

Definition overspent_node : Node := mkNode 1 [1%Z] 6 10 0.

(** Budget 10: once the first project (cost 10) is included nothing
    remains, yet the second project is free. *)
Definition spent_solver : BranchAndBound :=
  mkBB [mkProject 1 "A" 10 1 ""; mkProject 2 "D" 0 5 ""] 10 0 0 0 0 0 None 0.

Definition spent_node : Node := mkNode 1 [1%Z] 10 1 0.

(** The single project of the test [test_single_project], budget 100. *)
Definition single_project : list Project := [mkProject 1 "P1" 50 30 "Test"].

Definition single_solver : BranchAndBound :=
  mkBB single_project 100 0 0 0 0 0 None 0.

(** The leaf that includes the project, as the loop pops it. *)
Definition single_leaf : Node := mkNode 1 [1%Z] 50 30 30.


(** [__post_init__] gives a project of cost zero the efficiency zero,
    so the sort puts it last, and the loop of [calculate_bound] stops at
    the first project that does not fit, before it: the bound of a node
    then leaves out what the free project is worth.  Four projects,
    already in the order of the sort (efficiencies 5/3, 1/7, 0, 0); [D]
    costs nothing and is worth 100. *)
Definition free_instance : list Project :=
  [mkProject 1 "A" 6 10 ""; mkProject 2 "B" 7 1 "";
   mkProject 3 "C" (1 # 2) 0 ""; mkProject 4 "D" 0 100 ""].

(** The solver that [__init__] builds from them with budget 15/2. *)
Definition free_solver : BranchAndBound :=
  mkBB free_instance (15 # 2) 0 0 0 0 0 None 0.

(** The node that has included [A] alone. *)
Definition free_node : Node := mkNode 1 [1%Z] 6 10 0.

(** Scenario E of the specification. *)
Definition scenario_E : list Project :=
  [mkProject 1 "A" 6 10 ""; mkProject 2 "B" 5 8 "";
   mkProject 3 "C" 5 8 ""].

(** ** What the search keeps track of *)

(** The solver that [__init__] returns for a valid input. *)
Definition fresh_solver (ps : list Project) (b : Q) : BranchAndBound :=
  mkBB (sort_by_efficiency ps) b 0 0 0 0 0 None 0.

(** The node stands for a selection among the projects decided so far:
    its ids, its cost and its impact are those of the selection. *)
Definition tracked (ps : list Project) (node : Node) : Prop :=
  (level node <= length ps)%nat /\
  exists s1, s1 `sublist_of` take (level node) ps /\
    selected node = id <$> s1 /\
    (total_cost node == sum_cost s1)%Q /\
    (total_impact node == sum_impact s1)%Q.

(** Every node of the queue is tracked, and the incumbent is a tracked
    leaf within the budget. *)
Definition tracked_inv (ps : list Project) (b : Q) (self : BranchAndBound)
  (pq : list Node) : Prop :=
  projects self = ps /\ budget self = b /\
  Forall (tracked ps) pq /\
  match best_solution self with
  | Some node =>
      tracked ps node /\ level node = length ps /\
      (total_cost node <= b)%Q
  | None => True
  end.

(** The metrics of a result, whatever its status. *)
Definition result_metrics (r : Result) : Metrics :=
  match r with
  | no_solution _ m => m
  | optimal _ m _ => m
  end.

(** The status of a result is ["optimal"]. *)
Definition is_optimal (r : Result) : bool :=
  match r with
  | optimal _ _ _ => true
  | no_solution _ _ => false
  end.

(** The counters stay within the size of the search tree: a node of
    the queue at level [l] can still cost [weight] iterations. *)
Definition counters_inv (self : BranchAndBound) (pq : list Node) : Prop :=
  Forall (fun node => (level node <= n_projects self)%nat) pq /\
  (nodes_expanded self + sum_list_with (weight (n_projects self)) pq
   <= 2 ^ S (n_projects self) - 1)%nat /\
  (max_depth self <= n_projects self)%nat /\
  (pq <> [] \/ 1 <= nodes_expanded self)%nat.


(** ** Repeated calls *)

(** The solution that a result reports, if any. *)
Definition result_solution (r : Result) : option Solution :=
  match r with
  | optimal sol _ _ => Some sol
  | no_solution _ _ => None
  end.

(** A call of [solve] on a solver that already holds an optimal
    incumbent: the incumbent stays as it is, and the counter of popped
    nodes, which started at [n0], has grown once the queue is empty. *)
Definition again_inv (ps : list Project) (b : Q) (bs0 : option Node)
  (v0 : Q) (n0 : nat) (self : BranchAndBound) (pq : list Node) : Prop :=
  search_inv ps b self pq /\
  best_solution self = bs0 /\ best_value self = v0 /\
  (n0 <= nodes_expanded self)%nat /\
  (pq <> [] \/ n0 < nodes_expanded self)%nat.

(** ** The order of the priority queue *)

(** [c] is a child position of [i] in the layout of [heapq]. *)
Definition heap_child (i c : nat) : Prop :=
  c = (2 * i + 1)%nat \/ c = (2 * i + 2)%nat.

(** The item at [c] does not come before the item at [i]: by
    [Node.__lt__], its bound is not the larger one. *)
Definition ordered_at (heap : list Node) (i c : nat) : Prop :=
  forall y x, heap !! i = Some y -> heap !! c = Some x ->
              (bound x <= bound y)%Q.

(** The invariant of [heapq]: no item comes before its parent. *)
Definition heap_ordered (heap : list Node) : Prop :=
  forall i c, heap_child i c -> ordered_at heap i c.

(** Heap order but for the item at [pos], which is being moved: the
    other items are in order, also across [pos]. *)
Definition heap_hole (heap : list Node) (pos : nat) : Prop :=
  (forall i c, heap_child i c -> i <> pos -> c <> pos -> ordered_at heap i c) /\
  (forall p c, heap_child p pos -> heap_child pos c -> ordered_at heap p c).

(** The queue after a sequence of operations on the empty queue:
    [Some item] pushes [item], [None] pops (and does nothing on an
    empty queue, which [solve] never pops). *)
Definition queue_after (ops : list (option Node)) : list Node :=
  foldl (fun heap op =>
           match op with
           | Some item => heappush heap item
           | None =>
               match heappop heap with
               | Some (_, heap') => heap'
               | None => heap
               end
           end) [] ops.

(** ** More instances *)


(** Three projects on which [solve] divides by zero with budget 6. *)
Definition crash_instance : list Project :=
  [mkProject 1 "A" 6 10 ""; mkProject 2 "B" 7 1 "";
   mkProject 3 "D" 0 100 ""].


(** Pushes and a pop on the empty queue; the nodes differ in their
    bounds only. *)
Definition queue_ops_instance : list (option Node) :=
  [Some (mkNode 0 [] 0 0 5); Some (mkNode 1 [] 0 0 9);
   Some (mkNode 1 [] 0 0 7); None; Some (mkNode 2 [] 0 0 8)].

(** * Properties *)

(** ** Rational comparisons *)

Lemma Qleb_true x y : Qleb x y = true <-> (x <= y)%Q.
Proof. apply Qle_bool_iff. Qed.

Lemma Qleb_false x y : Qleb x y = false <-> (y < x)%Q.
Proof.
  unfold Qleb. rewrite <- not_true_iff_false, Qle_bool_iff.
  split; [apply Qnot_le_lt | apply Qlt_not_le].
Qed.

Lemma Qltb_true x y : Qltb x y = true <-> (x < y)%Q.
Proof.
  unfold Qltb. rewrite negb_true_iff. apply (Qleb_false y x).
Qed.

Lemma Qltb_false x y : Qltb x y = false <-> (y <= x)%Q.
Proof.
  unfold Qltb. rewrite negb_false_iff. apply (Qleb_true y x).
Qed.

(** ** The sort *)

Lemma insert_desc_perm p l : insert_desc p l ≡ₚ p :: l.
Proof.
  induction l as [|q l IH]; simpl; [reflexivity|].
  destruct (Qltb _ _); [|reflexivity].
  rewrite IH. apply Permutation_swap.
Qed.

Lemma sort_by_efficiency_perm l : sort_by_efficiency l ≡ₚ l.
Proof.
  induction l as [|p l IH]; simpl; [reflexivity|].
  now rewrite insert_desc_perm, IH.
Qed.

Lemma insert_desc_sorted p l :
  sorted_desc l -> sorted_desc (insert_desc p l).
Proof.
  induction l as [|q l IH]; simpl; [now split|].
  intros [Hq Hl].
  destruct (Qltb (efficiency p) (efficiency q)) eqn:E; simpl.
  - apply Qltb_true in E. split; [|now apply IH].
    rewrite insert_desc_perm. constructor; [lra|assumption].
  - apply Qltb_false in E. repeat split; trivial.
    constructor; [assumption|].
    eapply Forall_impl; [exact Hq|]. simpl. intros. lra.
Qed.

Lemma sort_by_efficiency_sorted l : sorted_desc (sort_by_efficiency l).
Proof.
  induction l as [|p l IH]; simpl; [exact I|].
  now apply insert_desc_sorted.
Qed.

(** ** The priority queue holds the same nodes, whatever their order *)

Lemma exchange_perm heap i j : exchange heap i j ≡ₚ heap.
Proof.
  unfold exchange.
  destruct (heap !! i) as [x|] eqn:Hi; [|reflexivity].
  destruct (heap !! j) as [y|] eqn:Hj; [|reflexivity].
  now apply Permutation_insert_swap.
Qed.

Lemma siftdown_perm fuel : forall heap startpos pos,
  siftdown fuel heap startpos pos ≡ₚ heap.
Proof.
  induction fuel as [|fuel IH]; intros heap startpos pos; simpl; [reflexivity|].
  destruct (startpos <? pos)%nat; [|reflexivity].
  destruct (heap !! pos); [|reflexivity].
  destruct (heap !! _); [|reflexivity].
  destruct (node_lt _ _); [|reflexivity].
  rewrite IH. apply exchange_perm.
Qed.

Lemma siftup_loop_perm fuel : forall heap pos,
  (siftup_loop fuel heap pos).1 ≡ₚ heap.
Proof.
  induction fuel as [|fuel IH]; intros heap pos; simpl; [reflexivity|].
  destruct (_ <? _)%nat; [|reflexivity].
  rewrite IH. apply exchange_perm.
Qed.

Lemma siftup_perm heap pos : siftup heap pos ≡ₚ heap.
Proof.
  unfold siftup.
  pose proof (siftup_loop_perm (length heap) heap pos) as H.
  destruct (siftup_loop _ _ _) as [heap' pos']. simpl in H.
  now rewrite siftdown_perm.
Qed.

Lemma heappush_perm heap item : heappush heap item ≡ₚ item :: heap.
Proof.
  unfold heappush. rewrite siftdown_perm.
  symmetry. apply Permutation_cons_append.
Qed.

Lemma heappop_perm heap item heap' :
  heappop heap = Some (item, heap') -> heap ≡ₚ item :: heap'.
Proof.
  unfold heappop.
  destruct heap as [|x l] using rev_ind; [discriminate|].
  rewrite last_snoc, removelast_last.
  destruct l as [|returnitem rest]; intros [= <- <-].
  - reflexivity.
  - rewrite siftup_perm. simpl. f_equiv.
    symmetry. apply Permutation_cons_append.
Qed.

Lemma heappop_None heap : heappop heap = None <-> heap = [].
Proof.
  unfold heappop. split; [|now intros ->].
  destruct heap as [|x l] using rev_ind; [reflexivity|].
  rewrite last_snoc, removelast_last. now destruct l.
Qed.

(** ** What one iteration does *)

Lemma calculate_bound_frame self self' node :
  projects self' = projects self -> budget self' = budget self ->
  calculate_bound self' node = calculate_bound self node.
Proof. unfold calculate_bound. now intros -> ->. Qed.

Lemma is_feasible_frame self self' node :
  budget self' = budget self -> is_feasible self' node = is_feasible self node.
Proof. unfold is_feasible. now intros ->. Qed.

Lemma should_prune_spec self node self' b r :
  should_prune self node = (self', (b, r)) ->
  frame self self' /\ nodes_expanded self' = nodes_expanded self /\
  max_depth self' = max_depth self /\
  match r with
  | infeasible => b = true /\ is_feasible self node = false
  | by_bound =>
      b = true /\ is_feasible self node = true /\
      (bound node <= best_value self)%Q
  | none =>
      b = false /\ is_feasible self node = true /\
      (best_value self < bound node)%Q
  end.
Proof.
  unfold should_prune.
  destruct (is_feasible self node) eqn:Hf; simpl.
  - destruct (Qleb _ _) eqn:Hb; intros [= <- <- <-];
      (split; [now repeat split|]); repeat split; trivial.
    + now apply Qleb_true.
    + now apply Qleb_false.
  - intros [= <- <- <-]. now repeat split.
Qed.

Lemma push_child_spec self pq child self' pq' :
  push_child self pq child = Ok (self', pq') ->
  exists b,
    calculate_bound self child = Ok b /\
    frame self self' /\ nodes_expanded self' = nodes_expanded self /\
    max_depth self' = max_depth self /\
    ((pq' = pq /\
      (is_feasible self child = false \/ (b <= best_value self)%Q)) \/
     (pq' = heappush pq (set_bound child b) /\
      is_feasible self child = true /\ (best_value self < b)%Q)).
Proof.
  unfold push_child.
  destruct (calculate_bound self child) as [b|e]; [|discriminate].
  simpl.
  destruct (should_prune self (set_bound child b)) as [s [p r]] eqn:Hsp.
  intros [= <- <-]. exists b.
  apply should_prune_spec in Hsp as (Hfr & Hne & Hmd & Hr).
  repeat (split; [assumption || reflexivity|]).
  destruct r; destruct Hr as [-> Hr]; simpl in *.
  - left. split; [reflexivity|]. now left.
  - left. split; [reflexivity|]. right. apply Hr.
  - right. split; [reflexivity|]. apply Hr.
Qed.

Lemma kept_cases self child b l :
  kept self child b l -> l = [] \/ l = [set_bound child b].
Proof. intros [[-> _]|[-> _]]; auto. Qed.

Lemma process_node_spec self pq cur self' pq' a :
  process_node self pq cur = Ok (self', pq', a) ->
  nodes_expanded self' = S (nodes_expanded self) /\
  max_depth self' = Nat.max (max_depth self) (level cur) /\
  projects self' = projects self /\ budget self' = budget self /\
  match a with
  | PrunedInfeasible =>
      pq' = pq /\ is_feasible self cur = false /\
      best_solution self' = best_solution self /\
      best_value self' = best_value self
  | PrunedBound =>
      pq' = pq /\ is_feasible self cur = true /\
      (bound cur <= best_value self)%Q /\
      best_solution self' = best_solution self /\
      best_value self' = best_value self
  | Leaf =>
      pq' = pq /\ level cur = n_projects self /\
      is_feasible self cur = true /\ (best_value self < bound cur)%Q /\
      (if Qltb (best_value self) (total_impact cur)
       then best_solution self' = Some cur /\
            best_value self' = total_impact cur
       else best_solution self' = best_solution self /\
            best_value self' = best_value self)
  | Expanded =>
      exists project bl br kl kr,
        projects self !! level cur = Some project /\
        is_feasible self cur = true /\ (best_value self < bound cur)%Q /\
        best_solution self' = best_solution self /\
        best_value self' = best_value self /\
        calculate_bound self (left_child cur project) = Ok bl /\
        calculate_bound self (right_child cur) = Ok br /\
        kept self (left_child cur project) bl kl /\
        kept self (right_child cur) br kr /\
        pq' ≡ₚ kr ++ kl ++ pq
  end.
Proof.
  unfold process_node.
  destruct (should_prune (count_node self cur) cur) as [s1 [p r]] eqn:Hsp.
  apply should_prune_spec in Hsp as ((Hp & Hb & Hbs & Hbv) & Hne & Hmd & Hr).
  simpl in Hp, Hb, Hbs, Hbv, Hne, Hmd.
  rewrite (is_feasible_frame self (count_node self cur)) in Hr by reflexivity.
  destruct r; destruct Hr as [-> Hr]; simpl in Hr.
  - intros [= <- <- <-]. now repeat split.
  - intros [= <- <- <-]. destruct Hr. now repeat split.
  - destruct Hr as [Hf Hlt].
    unfold n_projects. rewrite Hp.
    destruct (Nat.eqb_spec (level cur) (length (projects self))) as [Hl|Hl].
    + intros [= <- <- <-].
      unfold update_best_solution.
      rewrite (is_feasible_frame self s1), Hf, Hbv by assumption. simpl.
      destruct (Qltb _ _); simpl; now repeat split.
    + destruct (projects self !! level cur) as [project|] eqn:Hlk;
        [|discriminate].
      destruct (push_child s1 pq (left_child cur project)) as [[s2 pq2]|e]
        eqn:Hl1; [|discriminate].
      simpl.
      destruct (push_child s2 pq2 (right_child cur)) as [[s3 pq3]|e]
        eqn:Hl2; [|discriminate].
      simpl. intros [= <- <- <-].
      apply push_child_spec in Hl1
        as (bl & Hcl & (Hp2 & Hb2 & Hbs2 & Hbv2) & Hne2 & Hmd2 & Hk2).
      apply push_child_spec in Hl2
        as (br & Hcr & (Hp3 & Hb3 & Hbs3 & Hbv3) & Hne3 & Hmd3 & Hk3).
      repeat (split; [congruence|]).
      rewrite (calculate_bound_frame self) in Hcl by congruence.
      rewrite (calculate_bound_frame self) in Hcr by congruence.
      rewrite (is_feasible_frame self s1), Hbv in Hk2 by assumption.
      rewrite (is_feasible_frame self s2), Hbv2, Hbv in Hk3 by congruence.
      destruct Hk2 as [[-> Hk2]|[-> Hk2]], Hk3 as [[-> Hk3]|[-> Hk3]];
        [exists project, bl, br, [], []
        |exists project, bl, br, [], [set_bound (right_child cur) br]
        |exists project, bl, br, [set_bound (left_child cur project) bl], []
        |exists project, bl, br, [set_bound (left_child cur project) bl],
           [set_bound (right_child cur) br]];
        repeat (split; [congruence|]);
        (split; [unfold kept; tauto|]); (split; [unfold kept; tauto|]);
        simpl; rewrite ?heappush_perm; reflexivity.
Qed.

(** ** The loop ends *)

Lemma weight_pos n node : (level node <= n)%nat -> (1 <= weight n node)%nat.
Proof.
  intros H. unfold weight.
  replace (S n - level node)%nat with (S (n - level node)) by lia.
  rewrite Nat.pow_succ_r'.
  pose proof (Nat.pow_nonzero 2 (n - level node)). lia.
Qed.

Lemma weight_children n cur child1 child2 :
  (level cur < n)%nat ->
  level child1 = (level cur + 1)%nat -> level child2 = (level cur + 1)%nat ->
  (weight n child1 + weight n child2 < weight n cur)%nat.
Proof.
  intros H H1 H2. unfold weight. rewrite H1, H2.
  replace (S n - level cur)%nat with (S (n - level cur)) by lia.
  replace (S n - (level cur + 1))%nat with (n - level cur)%nat by lia.
  rewrite Nat.pow_succ_r'.
  pose proof (Nat.pow_nonzero 2 (n - level cur)). lia.
Qed.

Lemma solve_loop_total fuel : forall self pq,
  Forall (fun node => (level node <= n_projects self)%nat) pq ->
  (sum_list_with (weight (n_projects self)) pq < fuel)%nat ->
  exists r, solve_loop fuel self pq = Some r.
Proof.
  induction fuel as [|fuel IH]; intros self pq Hlv Hw; [lia|].
  simpl.
  destruct (heappop pq) as [[cur pq1]|] eqn:Hpop; [|eauto].
  apply heappop_perm in Hpop.
  rewrite Hpop in Hlv, Hw. simpl in Hw.
  apply Forall_cons in Hlv as [Hcur Hlv].
  destruct (process_node self pq1 cur) as [[[self' pq'] a]|e] eqn:Hstep;
    [|eauto].
  pose proof (weight_pos _ _ Hcur) as Hpos.
  apply process_node_spec in Hstep as (_ & _ & Hp & _ & Ha).
  assert (Hn : n_projects self' = n_projects self)
    by (unfold n_projects; now rewrite Hp).
  apply IH; rewrite Hn.
  - destruct a; try (destruct Ha as [-> _]; assumption).
    destruct Ha as (project & bl & br & kl & kr & Hlk & _ & _ & _ & _ & _ & _
                    & Hkl & Hkr & ->).
    apply lookup_lt_Some in Hlk. fold (n_projects self) in Hlk.
    apply kept_cases in Hkl, Hkr.
    rewrite !Forall_app. repeat split; trivial.
    + destruct Hkr as [->| ->]; repeat constructor. simpl. lia.
    + destruct Hkl as [->| ->]; repeat constructor. simpl. lia.
  - destruct a; try (destruct Ha as [-> _]; lia).
    destruct Ha as (project & bl & br & kl & kr & Hlk & _ & _ & _ & _ & _ & _
                    & Hkl & Hkr & ->).
    apply lookup_lt_Some in Hlk. fold (n_projects self) in Hlk.
    apply kept_cases in Hkl, Hkr.
    rewrite !sum_list_with_app.
    pose proof (weight_children (n_projects self) cur
                  (set_bound (left_child cur project) bl)
                  (set_bound (right_child cur) br) Hlk eq_refl eq_refl).
    destruct Hkl as [->| ->], Hkr as [->| ->]; simpl; lia.
Qed.

(** [solve] always comes back: with a result or with an exception. *)
Lemma solve_total self start_time end_time :
  exists r, solve self start_time end_time = Some r.
Proof.
  unfold solve.
  destruct (calculate_bound self root) as [b|e]; [|eauto].
  destruct (solve_loop_total (solve_fuel self) self
              (heappush [] (set_bound root b))) as [r Hr].
  - rewrite heappush_perm. repeat constructor. simpl. lia.
  - rewrite heappush_perm. simpl. unfold weight, solve_fuel. simpl level.
    rewrite Nat.sub_0_r.
    pose proof (Nat.pow_nonzero 2 (S (n_projects self))). lia.
  - rewrite Hr. destruct r as [s|e]; [|eauto].
    destruct (prepare_result _); eauto.
Qed.

Lemma run_total ps b start_time end_time :
  exists r, run ps b start_time end_time = Some r.
Proof.
  unfold run. destruct (init ps b); [apply solve_total|eauto].
Qed.

(** ** Invariants of the loop *)

Section LoopInvariant.
Variable Inv : BranchAndBound -> list Node -> Prop.
Hypothesis Inv_perm :
  forall self pq pq', pq ≡ₚ pq' -> Inv self pq -> Inv self pq'.
Hypothesis Inv_step :
  forall self pq cur self' pq' a,
    Inv self (cur :: pq) ->
    process_node self pq cur = Ok (self', pq', a) ->
    Inv self' pq'.

Lemma solve_loop_invariant fuel : forall self pq self',
  Inv self pq ->
  solve_loop fuel self pq = Some (Ok self') ->
  Inv self' [].
Proof.
  induction fuel as [|fuel IH]; intros self pq self' HI; [discriminate|].
  simpl.
  destruct (heappop pq) as [[cur pq1]|] eqn:Hpop.
  - apply heappop_perm in Hpop.
    destruct (process_node self pq1 cur) as [[[s2 pq2] a]|e] eqn:Hstep;
      [|discriminate].
    apply IH. eapply Inv_step; [|exact Hstep].
    eapply Inv_perm; [exact Hpop|exact HI].
  - apply heappop_None in Hpop as ->. now intros [= <-].
Qed.
End LoopInvariant.

(** An invariant under which an iteration cannot raise also shows that
    the loop returns normally. *)
Section SafeInvariant.
Variable Inv : BranchAndBound -> list Node -> Prop.
Hypothesis Inv_perm :
  forall self pq pq', pq ≡ₚ pq' -> Inv self pq -> Inv self pq'.
Hypothesis Inv_step :
  forall self pq cur self' pq' a,
    Inv self (cur :: pq) ->
    process_node self pq cur = Ok (self', pq', a) ->
    Inv self' pq'.
Hypothesis Inv_safe :
  forall self pq cur,
    Inv self (cur :: pq) -> exists r, process_node self pq cur = Ok r.

Lemma solve_loop_safe fuel : forall self pq r,
  Inv self pq ->
  solve_loop fuel self pq = Some r ->
  exists self', r = Ok self' /\ Inv self' [].
Proof.
  induction fuel as [|fuel IH]; intros self pq r HI; [discriminate|].
  simpl.
  destruct (heappop pq) as [[cur pq1]|] eqn:Hpop.
  - apply heappop_perm in Hpop.
    apply (Inv_perm _ _ _ Hpop) in HI.
    destruct (Inv_safe _ _ _ HI) as [[[s2 pq2] a] Hstep].
    rewrite Hstep. apply IH. eapply Inv_step; [exact HI|exact Hstep].
  - apply heappop_None in Hpop as ->. intros [= <-]. eauto.
Qed.
End SafeInvariant.

(** ** The division of [calculate_bound] *)

Lemma py_div_ok x y : ~ (y == 0)%Q -> py_div x y = Ok (x / y)%Q.
Proof.
  intros H. unfold py_div.
  destruct (Qeq_bool y 0) eqn:E; [|reflexivity].
  now apply Qeq_bool_iff in E.
Qed.

Lemma py_div_raise x y : (y == 0)%Q -> py_div x y = Raise ZeroDivisionError.
Proof.
  intros H. unfold py_div. apply Qeq_bool_iff in H. now rewrite H.
Qed.

(** The loop raises exactly when the division it reaches does. *)
Lemma bound_loop_operands ps : forall b r,
  match fraction_operands ps r with
  | None => exists v, bound_loop ps b r = Ok v
  | Some (x, c) =>
      (~ (c == 0)%Q -> exists v, bound_loop ps b r = Ok v) /\
      ((c == 0)%Q -> bound_loop ps b r = Raise ZeroDivisionError)
  end.
Proof.
  induction ps as [|p ps IH]; intros b r; simpl; [eauto|].
  destruct (Qleb (cost p) r); [apply IH|].
  split; intros H.
  - rewrite py_div_ok by assumption. simpl. eauto.
  - now rewrite py_div_raise.
Qed.

Lemma fraction_operands_range ps : forall r x c,
  (0 <= r)%Q -> Forall (fun p => (0 <= cost p)%Q) ps ->
  fraction_operands ps r = Some (x, c) -> (0 <= x)%Q /\ (x < c)%Q.
Proof.
  induction ps as [|p ps IH]; intros r x c Hr Hc; simpl; [discriminate|].
  apply Forall_cons in Hc as [Hp Hc].
  destruct (Qleb (cost p) r) eqn:E.
  - apply Qleb_true in E. apply IH; [lra|assumption].
  - apply Qleb_false in E. intros [= <- <-]. split; assumption.
Qed.

Lemma calculate_bound_nonzero_costs self node :
  Forall (fun p => ~ (cost p == 0)%Q) (projects self) ->
  exists b, calculate_bound self node = Ok b.
Proof.
  intros H. unfold calculate_bound.
  apply (Forall_drop _ (level node)) in H.
  generalize (total_impact node) (budget self - total_cost node)%Q.
  induction H as [|p ps Hp _ IH]; intros b r; simpl; [eauto|].
  destruct (Qleb (cost p) r); [apply IH|].
  rewrite py_div_ok by assumption. simpl. eauto.
Qed.

Lemma push_child_safe self pq child :
  Forall (fun p => ~ (cost p == 0)%Q) (projects self) ->
  exists self' pq', push_child self pq child = Ok (self', pq').
Proof.
  intros H. unfold push_child.
  destruct (calculate_bound_nonzero_costs self child H) as [b ->]. simpl.
  destruct (should_prune self (set_bound child b)) as [s [p r]]. eauto.
Qed.

Lemma process_node_safe self pq cur :
  Forall (fun p => ~ (cost p == 0)%Q) (projects self) ->
  (level cur <= n_projects self)%nat ->
  exists r, process_node self pq cur = Ok r.
Proof.
  intros Hc Hl. unfold process_node.
  destruct (should_prune (count_node self cur) cur) as [s1 [p r]] eqn:Hsp.
  apply should_prune_spec in Hsp as ((Hp & _) & _). simpl in Hp.
  destruct p; [eauto|].
  unfold n_projects in *. rewrite Hp.
  destruct (Nat.eqb_spec (level cur) (length (projects self))); [eauto|].
  destruct (lookup_lt_is_Some_2 (projects self) (level cur)) as [project ->];
    [lia|].
  rewrite <- Hp in Hc.
  destruct (push_child_safe s1 pq (left_child cur project) Hc)
    as (s2 & pq2 & H2).
  rewrite H2. simpl.
  apply push_child_spec in H2 as (_ & _ & (Hp2 & _) & _).
  rewrite <- Hp2 in Hc.
  destruct (push_child_safe s2 pq2 (right_child cur) Hc) as (s3 & pq3 & ->).
  simpl. eauto.
Qed.

(** ** Sums over selections *)

Lemma sum_cost_app s1 s2 : (sum_cost (s1 ++ s2) == sum_cost s1 + sum_cost s2)%Q.
Proof. induction s1 as [|p s1 IH]; simpl; [lra|]. rewrite IH. lra. Qed.

Lemma sum_impact_app s1 s2 :
  (sum_impact (s1 ++ s2) == sum_impact s1 + sum_impact s2)%Q.
Proof. induction s1 as [|p s1 IH]; simpl; [lra|]. rewrite IH. lra. Qed.

Lemma sum_cost_perm s s' : s ≡ₚ s' -> (sum_cost s == sum_cost s')%Q.
Proof.
  induction 1 as [|p s s' _ IH|p q s|s s' s'' _ IH1 _ IH2]; simpl.
  - reflexivity.
  - now rewrite IH.
  - lra.
  - now rewrite IH1.
Qed.

Lemma sum_impact_perm s s' : s ≡ₚ s' -> (sum_impact s == sum_impact s')%Q.
Proof.
  induction 1 as [|p s s' _ IH|p q s|s s' s'' _ IH1 _ IH2]; simpl.
  - reflexivity.
  - now rewrite IH.
  - lra.
  - now rewrite IH1.
Qed.

Lemma sum_cost_nonneg s :
  Forall (fun p => (0 <= cost p)%Q) s -> (0 <= sum_cost s)%Q.
Proof. induction 1; simpl; lra. Qed.

Lemma Forall_sublist {A} (P : A -> Prop) (s l : list A) :
  s `sublist_of` l -> Forall P l -> Forall P s.
Proof.
  intros Hs Hl. apply Forall_forall. intros x Hx.
  eapply Forall_forall in Hl; [exact Hl|]. eapply elem_of_sublist; eassumption.
Qed.

Lemma positive_costs_nonneg_cost ps s :
  positive_costs ps -> s `sublist_of` ps -> (0 <= sum_cost s)%Q.
Proof.
  intros Hpos Hs. apply sum_cost_nonneg.
  eapply Forall_sublist; [exact Hs|].
  eapply Forall_impl; [exact Hpos|]. simpl. intros p [H _]. lra.
Qed.

Lemma positive_costs_nonzero ps :
  positive_costs ps -> Forall (fun p => ~ (cost p == 0)%Q) ps.
Proof.
  intros H. eapply Forall_impl; [exact H|]. simpl. intros p [Hp _]. lra.
Qed.

Lemma sorted_desc_drop k ps : sorted_desc ps -> sorted_desc (drop k ps).
Proof.
  revert ps. induction k as [|k IH]; intros [|p ps]; simpl; trivial.
  intros [_ H]. now apply IH.
Qed.

(** ** The bound is sound when no project is free *)

Lemma efficiency_cost p :
  (0 < cost p)%Q -> (efficiency p * cost p == impact p)%Q.
Proof.
  intros H. unfold efficiency.
  assert (E : Qltb 0 (cost p) = true) by now apply Qltb_true.
  rewrite E. field. lra.
Qed.

Lemma efficiency_nonneg p :
  (0 < cost p)%Q -> (0 <= impact p)%Q -> (0 <= efficiency p)%Q.
Proof.
  intros Hc Hi. pose proof (efficiency_cost p Hc) as H.
  destruct (Qlt_le_dec (efficiency p) 0) as [Hneg|]; [|assumption].
  pose proof (Qmult_lt_compat_r _ _ _ Hc Hneg). lra.
Qed.

(** A selection is worth at most its cost times the best efficiency. *)
Lemma impact_le_efficiency_cost e s :
  Forall (fun p => (0 < cost p)%Q /\ (efficiency p <= e)%Q) s ->
  (sum_impact s <= e * sum_cost s)%Q.
Proof.
  induction 1 as [|p s [Hc He] _ IH]; simpl; [lra|].
  pose proof (efficiency_cost p Hc) as Hp.
  assert (efficiency p * cost p <= e * cost p)%Q
    by (apply Qmult_le_compat_r; lra).
  lra.
Qed.

(** Soundness of the fractional bound, in the form that goes through
    the induction: a selection that overspends the remaining budget by
    [d] exceeds the bound by at most [e * d]. *)
Lemma bound_loop_sound_gen ps :
  sorted_desc ps -> positive_costs ps ->
  forall b r d e v s,
    (0 <= r)%Q -> (0 <= d)%Q -> (0 <= e)%Q ->
    Forall (fun p => (efficiency p <= e)%Q) ps ->
    bound_loop ps b r = Ok v ->
    s `sublist_of` ps -> (sum_cost s <= r + d)%Q ->
    (b + sum_impact s <= v + e * d)%Q.
Proof.
  induction ps as [|p ps IH];
    intros Hsorted Hpos b r d e v s Hr Hd He0 He Hv Hs Hc.
  - apply sublist_nil_r in Hs as ->. simpl in *. injection Hv as <-.
    pose proof (Qmult_le_0_compat _ _ He0 Hd). lra.
  - destruct Hsorted as [Hhead Hsorted].
    apply Forall_cons in Hpos as [[Hcp Hip] Hpos].
    apply Forall_cons in He as [Hpe He].
    pose proof (efficiency_cost p Hcp) as Hp.
    pose proof (efficiency_nonneg p Hcp Hip) as Hp0.
    assert (Hpd : (efficiency p * d <= e * d)%Q)
      by (apply Qmult_le_compat_r; assumption).
    simpl in Hv. destruct (Qleb (cost p) r) eqn:E.
    + apply Qleb_true in E.
      apply sublist_cons_r in Hs as [Hs|(s' & -> & Hs)].
      * assert (H := IH Hsorted Hpos (b + impact p)%Q (r - cost p)%Q
                       (d + cost p)%Q (efficiency p) v s).
        lapply H; [clear H; intros H|lra].
        lapply H; [clear H; intros H|lra].
        specialize (H Hp0 Hhead Hv Hs).
        lapply H; [clear H; intros H|lra]. lra.
      * simpl in Hc |- *.
        assert (H := IH Hsorted Hpos (b + impact p)%Q (r - cost p)%Q
                       d e v s').
        lapply H; [clear H; intros H|lra].
        specialize (H Hd He0 He Hv Hs).
        lapply H; [clear H; intros H|lra]. lra.
    + apply Qleb_false in E.
      rewrite py_div_ok in Hv by lra. simpl in Hv. injection Hv as <-.
      assert (Hall : Forall (fun q => (0 < cost q)%Q /\
                                      (efficiency q <= efficiency p)%Q) s).
      { eapply Forall_sublist; [exact Hs|].
        constructor; [split; [assumption|lra]|].
        apply Forall_forall. intros q Hq. split.
        - eapply Forall_forall in Hpos; [|exact Hq]. apply Hpos.
        - eapply Forall_forall in Hhead; [|exact Hq]. exact Hhead. }
      apply impact_le_efficiency_cost in Hall.
      assert (Hrd : (efficiency p * sum_cost s <= efficiency p * (r + d))%Q).
      { rewrite !(Qmult_comm (efficiency p)).
        apply Qmult_le_compat_r; assumption. }
      assert (Hfrac : (impact p * (r / cost p) == efficiency p * r)%Q).
      { rewrite <- Hp. field. lra. }
      rewrite Hfrac. lra.
Qed.

Lemma bound_loop_sound ps b r v s :
  sorted_desc ps -> positive_costs ps -> (0 <= r)%Q ->
  bound_loop ps b r = Ok v ->
  s `sublist_of` ps -> (sum_cost s <= r)%Q ->
  (b + sum_impact s <= v)%Q.
Proof.
  intros Hsorted Hpos Hr Hv Hs Hc.
  destruct ps as [|p ps].
  - apply sublist_nil_r in Hs as ->. simpl in *. injection Hv as <-. lra.
  - pose proof Hpos as Hpos'. apply Forall_cons in Hpos' as [[Hcp Hip] _].
    pose proof (bound_loop_sound_gen (p :: ps) Hsorted Hpos b r 0
                  (efficiency p) v s Hr) as H.
    lapply H; [clear H; intros H|lra].
    specialize (H (efficiency_nonneg p Hcp Hip)).
    lapply H; [clear H; intros H|].
    + specialize (H Hv Hs). lapply H; [lra|lra].
    + destruct Hsorted as [Hhead _]. constructor; [lra|exact Hhead].
Qed.

(** ** The search finds the optimum when no project is free *)

Section Search.
Variable ps : list Project.
Variable b : Q.
Hypothesis ps_sorted : sorted_desc ps.
Hypothesis ps_positive : positive_costs ps.

Lemma search_inv_perm self pq pq' :
  pq ≡ₚ pq' -> search_inv ps b self pq -> search_inv ps b self pq'.
Proof.
  intros Hperm (Hp & Hb & Hc & Hs & Hbest & Hcov).
  repeat (split; [assumption || now rewrite <- Hperm|]).
  intros s H1 H2 H3. destruct (Hcov s H1 H2 H3) as (node & Hin & Hn).
  exists node. split; [now rewrite <- Hperm|assumption].
Qed.

Lemma search_inv_safe self pq cur :
  search_inv ps b self (cur :: pq) ->
  exists r, process_node self pq cur = Ok r.
Proof.
  intros (Hp & _ & Hc & _). apply Forall_cons in Hc as [[Hl _] _].
  apply process_node_safe.
  - rewrite Hp. now apply positive_costs_nonzero.
  - unfold n_projects. now rewrite Hp.
Qed.

(** The bound of a child, as [calculate_bound] computes it, allows for
    every selection that completes the child within the budget. *)
Lemma child_bound_sound self child v s1 s2 :
  projects self = ps -> budget self = b ->
  calculate_bound self child = Ok v ->
  s2 `sublist_of` drop (level child) ps ->
  (total_cost child == sum_cost s1)%Q ->
  (total_impact child == sum_impact s1)%Q ->
  (sum_cost (s1 ++ s2) <= b)%Q ->
  (sum_impact (s1 ++ s2) <= v)%Q.
Proof.
  unfold calculate_bound. intros -> -> Hv Hs2 Hc Hi Hb.
  rewrite sum_cost_app in Hb. rewrite sum_impact_app, <- Hi.
  eapply bound_loop_sound; [| | |exact Hv|exact Hs2|].
  - now apply sorted_desc_drop.
  - now apply Forall_drop.
  - pose proof (positive_costs_nonneg_cost _ _ ps_positive
                  (sublist_drop ps (level child))).
    assert (0 <= sum_cost s2)%Q; [|lra].
    eapply positive_costs_nonneg_cost; [exact ps_positive|].
    etransitivity; [exact Hs2|apply sublist_drop].
  - lra.
Qed.

Lemma covers_feasible node s :
  covers ps node s -> (sum_cost s <= b)%Q -> (total_cost node <= b)%Q.
Proof.
  intros (s1 & s2 & -> & _ & Hs2 & Hc & _) Hb.
  rewrite sum_cost_app in Hb.
  assert (0 <= sum_cost s2)%Q; [|lra].
  eapply positive_costs_nonneg_cost; [exact ps_positive|].
  etransitivity; [exact Hs2|apply sublist_drop].
Qed.

(** A selection below an expanded node lies below one of its children,
    and that child is kept. *)
Lemma covers_child self cur project bl br kl kr s :
  projects self = ps -> budget self = b ->
  projects self !! level cur = Some project ->
  calculate_bound self (left_child cur project) = Ok bl ->
  calculate_bound self (right_child cur) = Ok br ->
  kept self (left_child cur project) bl kl ->
  kept self (right_child cur) br kr ->
  covers ps cur s -> (sum_cost s <= b)%Q ->
  (best_value self < sum_impact s)%Q ->
  exists node, node ∈ kr ++ kl /\ covers ps node s.
Proof.
  intros Hp Hb Hlk Hbl Hbr Hkl Hkr
         (s1 & s2 & -> & Hs1 & Hs2 & Hc & Hi & Hbd) Hcost Hbest.
  rewrite Hp in Hlk.
  rewrite (drop_S _ _ _ Hlk) in Hs2.
  apply sublist_cons_r in Hs2 as [Hs2|(s2' & -> & Hs2)].
  - (* the project is left out: the right child *)
    assert (Hv : (sum_impact (s1 ++ s2) <= br)%Q).
    { eapply (child_bound_sound self (right_child cur)); eauto.
      simpl. now rewrite Nat.add_1_r. }
    exists (set_bound (right_child cur) br). split.
    + apply elem_of_app. left.
      destruct Hkr as [[_ [Hf|Hle]]|[-> _]]; [| |apply list_elem_of_here].
      * exfalso. unfold is_feasible in Hf. apply Qleb_false in Hf.
        simpl in Hf. rewrite Hb in Hf.
        assert (total_cost cur <= b)%Q; [|lra].
        eapply (covers_feasible cur (s1 ++ s2)); [|exact Hcost].
        exists s1, s2. repeat split; trivial.
        rewrite (drop_S _ _ _ Hlk). now constructor.
      * exfalso. lra.
    + exists s1, s2. simpl. rewrite Nat.add_1_r, (take_S_r _ _ _ Hlk).
      repeat split; trivial. now apply sublist_inserts_r.
  - (* the project is taken: the left child *)
    assert (Heq : s1 ++ project :: s2' = (s1 ++ [project]) ++ s2')
      by now rewrite <- app_assoc.
    rewrite Heq in *.
    assert (Hc' : (total_cost (left_child cur project)
                   == sum_cost (s1 ++ [project]))%Q).
    { simpl. rewrite sum_cost_app, Hc. simpl. lra. }
    assert (Hi' : (total_impact (left_child cur project)
                   == sum_impact (s1 ++ [project]))%Q).
    { simpl. rewrite sum_impact_app, Hi. simpl. lra. }
    assert (Hs1' : s1 ++ [project] `sublist_of` take (S (level cur)) ps).
    { rewrite (take_S_r _ _ _ Hlk). now apply sublist_app. }
    assert (Hv : (sum_impact ((s1 ++ [project]) ++ s2') <= bl)%Q).
    { eapply (child_bound_sound self (left_child cur project)); eauto.
      simpl. now rewrite Nat.add_1_r. }
    exists (set_bound (left_child cur project) bl). split.
    + apply elem_of_app. right.
      destruct Hkl as [[_ [Hf|Hle]]|[-> _]]; [| |apply list_elem_of_here].
      * exfalso. unfold is_feasible in Hf. apply Qleb_false in Hf.
        rewrite Hb, Hc' in Hf.
        rewrite sum_cost_app in Hcost.
        assert (0 <= sum_cost s2')%Q; [|lra].
        eapply positive_costs_nonneg_cost; [exact ps_positive|].
        etransitivity; [exact Hs2|apply sublist_drop].
      * exfalso. lra.
    + exists (s1 ++ [project]), s2'.
      split; [reflexivity|]. split; [simpl; now rewrite Nat.add_1_r|].
      split; [simpl; now rewrite Nat.add_1_r|].
      split; [exact Hc'|]. split; [exact Hi'|exact Hv].
Qed.

Lemma consistent_children self cur project bl br kl kr :
  projects self = ps ->
  projects self !! level cur = Some project ->
  kept self (left_child cur project) bl kl ->
  kept self (right_child cur) br kr ->
  consistent ps cur ->
  Forall (consistent ps) (kr ++ kl).
Proof.
  intros Hp Hlk Hkl Hkr (_ & s1 & Hs1 & Hc & Hi).
  rewrite Hp in Hlk. pose proof (lookup_lt_Some _ _ _ Hlk) as Hlt.
  apply kept_cases in Hkl, Hkr. apply Forall_app. split.
  - destruct Hkr as [->| ->]; [constructor|].
    constructor; [|constructor]. split; simpl; [lia|].
    exists s1. rewrite Nat.add_1_r, (take_S_r _ _ _ Hlk).
    split; [now apply sublist_inserts_r|]. now split.
  - destruct Hkl as [->| ->]; [constructor|].
    constructor; [|constructor]. split; simpl; [lia|].
    exists (s1 ++ [project]). rewrite Nat.add_1_r, (take_S_r _ _ _ Hlk).
    split; [now apply sublist_app|].
    rewrite sum_cost_app, sum_impact_app, Hc, Hi. simpl. split; lra.
Qed.

Lemma search_inv_step self pq cur self' pq' a :
  search_inv ps b self (cur :: pq) ->
  process_node self pq cur = Ok (self', pq', a) ->
  search_inv ps b self' pq'.
Proof.
  intros (Hp & Hb & Hc & Hs & Hbest & Hcov) Hstep.
  apply Forall_cons in Hc as [Hcur Hc].
  apply process_node_spec in Hstep as (_ & _ & Hp' & Hb' & Ha).
  unfold search_inv. rewrite Hp', Hb'.
  split; [exact Hp|]. split; [exact Hb|].
  assert (Hrest : forall s,
             s `sublist_of` ps -> (sum_cost s <= b)%Q ->
             (best_value self < sum_impact s)%Q ->
             ~ covers ps cur s ->
             exists node, node ∈ pq /\ covers ps node s).
  { intros s H1 H2 H3 Hn. destruct (Hcov s H1 H2 H3) as (node & Hin & Hnode).
    apply elem_of_cons in Hin as [->|Hin]; [contradiction|eauto]. }
  destruct a.
  - destruct Ha as (-> & Hf & -> & ->).
    repeat (split; [assumption|]).
    intros s H1 H2 H3. apply Hrest; trivial. intros Hn.
    apply covers_feasible in Hn; [|exact H2].
    unfold is_feasible in Hf. apply Qleb_false in Hf. rewrite Hb in Hf. lra.
  - destruct Ha as (-> & _ & Hle & -> & ->).
    repeat (split; [assumption|]).
    intros s H1 H2 H3. apply Hrest; trivial.
    intros (? & ? & _ & _ & _ & _ & _ & Hn). lra.
  - destruct Ha as (-> & Hl & Hf & _ & Ha).
    unfold is_feasible in Hf. apply Qleb_true in Hf. rewrite Hb in Hf.
    split; [assumption|].
    assert (Hleaf : forall s, covers ps cur s ->
                              (sum_impact s == total_impact cur)%Q).
    { intros s (s1 & s2 & -> & _ & Hs2 & _ & Hi & _).
      unfold n_projects in Hl. rewrite Hp in Hl.
      rewrite Hl, drop_all in Hs2. apply sublist_nil_r in Hs2 as ->.
      now rewrite app_nil_r, Hi. }
    destruct (Qltb (best_value self) (total_impact cur)) eqn:E.
    + apply Qltb_true in E. destruct Ha as [-> ->].
      split; [|split; [now split|]].
      * destruct Hcur as (_ & s1 & Hs1 & Hc1 & Hi1).
        unfold n_projects in Hl. rewrite Hp in Hl.
        rewrite Hl, firstn_all in Hs1.
        exists s1. repeat split; trivial; [lra|now symmetry].
      * intros s H1 H2 H3. apply Hrest; trivial; [lra|].
        intros Hn. apply Hleaf in Hn. lra.
    + apply Qltb_false in E. destruct Ha as [-> ->].
      repeat (split; [assumption|]).
      intros s H1 H2 H3. apply Hrest; trivial.
      intros Hn. apply Hleaf in Hn. lra.
  - destruct Ha as (project & bl & br & kl & kr & Hlk & _ & _ & -> & ->
                    & Hbl & Hbr & Hkl & Hkr & Hperm).
    split.
    { rewrite Hperm, app_assoc. apply Forall_app. split; [|assumption].
      eapply consistent_children; eauto. }
    repeat (split; [assumption|]).
    intros s H1 H2 H3.
    destruct (Hcov s H1 H2 H3) as (node & Hin & Hnode).
    apply elem_of_cons in Hin as [->|Hin].
    + destruct (covers_child self cur project bl br kl kr s)
        as (child & Hin & Hchild); trivial.
      exists child. split; [|assumption].
      rewrite Hperm, app_assoc. apply elem_of_app. now left.
    + exists node. split; [|assumption].
      rewrite Hperm, !elem_of_app. auto.
Qed.
End Search.

Lemma init_ok ps b :
  ps <> [] -> (0 < b)%Q ->
  init ps b = Ok (mkBB (sort_by_efficiency ps) b 0 0 0 0 0 None 0).
Proof.
  intros Hne Hb. unfold init. destruct ps; [congruence|].
  assert (E : Qleb b 0 = false) by (apply Qleb_false; lra).
  now rewrite E.
Qed.

Lemma is_optimum_sorted ps b v :
  (exists s, s `sublist_of` sort_by_efficiency ps /\ (sum_cost s <= b)%Q /\
             (sum_impact s == v)%Q) ->
  (forall s, s `sublist_of` sort_by_efficiency ps -> (sum_cost s <= b)%Q ->
             (sum_impact s <= v)%Q) ->
  is_optimum ps b v.
Proof.
  intros (s & Hs & Hc & Hi) Hmax. split.
  - exists s. split; [|now split].
    rewrite <- (sort_by_efficiency_perm ps). now apply sublist_submseteq.
  - intros s' Hs' Hc'.
    rewrite <- (sort_by_efficiency_perm ps) in Hs'.
    apply submseteq_sublist_r in Hs' as (s'' & Hperm & Hsub).
    rewrite (sum_impact_perm _ _ Hperm).
    apply Hmax; [assumption|]. now rewrite <- (sum_cost_perm _ _ Hperm).
Qed.

(** With strictly positive costs [solve] returns normally, and what it
    returns is the optimum of the knapsack. *)
Theorem solve_optimal_positive_costs ps b t0 t1 :
  ps <> [] -> (0 < b)%Q -> positive_costs ps ->
  exists r self',
    run ps b t0 t1 = Some (Ok (r, self')) /\
    is_optimum ps b (result_value r) /\ (result_cost r <= b)%Q.
Proof.
  intros Hne Hb Hpos.
  destruct (run_total ps b t0 t1) as [r Hr]. revert Hr.
  unfold run. rewrite (init_ok ps b Hne Hb).
  set (self := mkBB _ _ _ _ _ _ _ _ _).
  assert (Hsorted : sorted_desc (sort_by_efficiency ps))
    by apply sort_by_efficiency_sorted.
  assert (Hpos' : positive_costs (sort_by_efficiency ps))
    by (unfold positive_costs; now rewrite sort_by_efficiency_perm).
  unfold solve.
  destruct (calculate_bound_nonzero_costs self root) as [rb Hrb].
  { now apply positive_costs_nonzero. }
  rewrite Hrb.
  destruct (solve_loop _ _ _) as [lr|] eqn:Hloop; [|discriminate].
  apply (solve_loop_safe (search_inv (sort_by_efficiency ps) b)
           (search_inv_perm _ _)
           (search_inv_step _ _ Hsorted Hpos')
           (search_inv_safe _ _ Hpos')) in Hloop
    as (s & -> & (_ & Hbs & _ & Hatt & Hbest & Hcov)).
  - assert (Hopt : is_optimum ps b (best_value s)).
    { apply is_optimum_sorted; [exact Hatt|].
      intros sel Hsel Hc.
      destruct (Qlt_le_dec (best_value s) (sum_impact sel)) as [Hlt|]; trivial.
      destruct (Hcov sel Hsel Hc Hlt) as (node & Hin & _).
      now apply elem_of_nil in Hin. }
    unfold prepare_result. simpl.
    destruct (best_solution s) as [best|].
    + destruct Hbest as [Hv Hc]. rewrite Hbs, py_div_ok by lra. simpl.
      intros [= <-]. eexists _, _. split; [reflexivity|]. simpl.
      rewrite Hv. now split.
    + intros [= <-]. eexists _, _. split; [reflexivity|]. simpl.
      rewrite Hbest in Hopt. split; [assumption|lra].
  - split; [reflexivity|]. split; [reflexivity|]. split.
    { rewrite heappush_perm. constructor; [|constructor].
      split; simpl; [lia|]. exists [].
      split; [apply sublist_nil_l|]. split; reflexivity. }
    split.
    { exists []. split; [apply sublist_nil_l|]. simpl. split; [lra|reflexivity]. }
    split; [reflexivity|].
    intros sel Hsel Hc _. exists (set_bound root rb).
    split; [rewrite heappush_perm; apply list_elem_of_here|].
    exists [], sel. simpl.
    split; [reflexivity|]. split; [apply sublist_nil_l|].
    split; [exact Hsel|]. split; [reflexivity|]. split; [reflexivity|].
    eapply (child_bound_sound _ b Hsorted Hpos' self root rb [] sel);
      trivial; reflexivity.
Qed.


(** ** Optimality of [solve] *)

(** On scenario E every project has a cost, and [solve] is optimal. *)
Lemma solve_optimal_scenario_E :
  exists r self',
    run scenario_E 10 0 1 = Some (Ok (r, self')) /\
    is_optimum scenario_E 10 (result_value r) /\ (result_cost r <= 10)%Q.
Proof.
  apply solve_optimal_positive_costs.
  - discriminate.
  - reflexivity.
  - repeat constructor; simpl; lra.
Qed.

Lemma free_instance_valid :
  free_instance <> [] /\ nonneg free_instance /\
  sort_by_efficiency free_instance = free_instance /\
  sorted_desc free_instance /\
  init free_instance (15 # 2) = Ok free_solver.
Proof.
  split; [discriminate|]. split.
  - repeat constructor; simpl; lra.
  - split; [reflexivity|]. split; [|reflexivity].
    simpl. repeat split; repeat constructor; vm_compute; discriminate.
Qed.

(** C1. With budget 15/2 on the four projects of [free_instance],
    [solve] returns status ["optimal"] with total impact 101, although
    the projects [A] and [D] together cost 6 and are worth 110: the
    returned impact is not the optimum. *)
Theorem solve_not_optimal_with_free_project start_time end_time :
  exists sol m d self',
    run free_instance (15 # 2) start_time end_time
    = Some (Ok (optimal sol m d, self')) /\
    (s_total_impact sol == 101)%Q /\
    (exists s, s ⊆+ free_instance /\ (sum_cost s <= 15 # 2)%Q /\
               (sum_impact s == 110)%Q) /\
    ~ is_optimum free_instance (15 # 2) (s_total_impact sol).
Proof.
  assert (Hs : exists s, s ⊆+ free_instance /\ (sum_cost s <= 15 # 2)%Q /\
                         (sum_impact s == 110)%Q).
  { exists [mkProject 1 "A" 6 10 ""; mkProject 4 "D" 0 100 ""].
    split; [|split; [vm_compute; discriminate|vm_compute; reflexivity]].
    apply sublist_submseteq. unfold free_instance. repeat constructor. }
  eexists _, _, _, _. split; [vm_compute; reflexivity|].
  split; [vm_compute; reflexivity|]. split; [exact Hs|].
  intros [_ Hmax]. destruct Hs as (s & Hsub & Hcost & Himp).
  apply Hmax in Hsub; [|exact Hcost].
  rewrite Himp in Hsub. revert Hsub. vm_compute. intros H. now apply H.
Qed.

(** ** The bound of a node and its completions *)


(** C2. On [free_solver], the node that has included [A] (level 1,
    cost 6, impact 10) is feasible and has bound 143/14, about 10.2;
    its completion by the free project [D] stays within the budget and
    is worth 110, more than the bound. *)
Theorem bound_below_completion_with_free_project :
  sorted_desc (projects free_solver) /\ nonneg (projects free_solver) /\
  (total_cost free_node == sum_cost (take 1 (projects free_solver)))%Q /\
  (total_impact free_node == sum_impact (take 1 (projects free_solver)))%Q /\
  is_feasible free_solver free_node = true /\
  exists b completion,
    calculate_bound free_solver free_node = Ok b /\ (b == 143 # 14)%Q /\
    completion ⊆+ drop (level free_node) (projects free_solver) /\
    (total_cost free_node + sum_cost completion <= budget free_solver)%Q /\
    (b < total_impact free_node + sum_impact completion)%Q.
Proof.
  destruct free_instance_valid as (_ & Hnn & _ & Hsorted & _).
  split; [exact Hsorted|]. split; [exact Hnn|].
  split; [vm_compute; reflexivity|]. split; [vm_compute; reflexivity|].
  split; [reflexivity|].
  eexists _, [mkProject 4 "D" 0 100 ""].
  split; [vm_compute; reflexivity|]. split; [reflexivity|].
  split; [|split; [vm_compute; discriminate|vm_compute; reflexivity]].
  apply sublist_submseteq. simpl. repeat constructor.
Qed.

(** ** No solution *)


Section NothingFits.
Variable b : Q.
Hypothesis b_pos : (0 < b)%Q.

Lemma nothing_fits_perm self pq pq' :
  pq ≡ₚ pq' -> nothing_fits_inv b self pq -> nothing_fits_inv b self pq'.
Proof. unfold nothing_fits_inv. now intros ->. Qed.

Lemma nothing_fits_nonzero self pq :
  nothing_fits_inv b self pq ->
  Forall (fun p => ~ (cost p == 0)%Q) (projects self).
Proof.
  intros (_ & H & _). eapply Forall_impl; [exact H|].
  simpl. intros. lra.
Qed.

Lemma nothing_fits_safe self pq cur :
  nothing_fits_inv b self (cur :: pq) ->
  exists r, process_node self pq cur = Ok r.
Proof.
  intros H. apply process_node_safe.
  - eapply nothing_fits_nonzero, H.
  - destruct H as (_ & _ & _ & _ & H).
    now apply Forall_cons in H as [[H _] _].
Qed.

Lemma nothing_fits_step self pq cur self' pq' a :
  nothing_fits_inv b self (cur :: pq) ->
  process_node self pq cur = Ok (self', pq', a) ->
  nothing_fits_inv b self' pq'.
Proof.
  intros (Hb & Hc & Hbs & Hbv & Hq) Hstep.
  apply Forall_cons in Hq as [[Hlv Hcur] Hq].
  apply process_node_spec in Hstep as (_ & _ & Hp & Hb' & Ha).
  unfold nothing_fits_inv, n_projects in *. rewrite Hp, Hb'.
  repeat (split; [assumption|]).
  destruct a.
  - destruct Ha as (-> & _ & -> & ->). auto.
  - destruct Ha as (-> & _ & _ & -> & ->). auto.
  - destruct Ha as (-> & _ & Hf & _ & Ha).
    apply Qleb_true in Hf. rewrite Hb in Hf.
    destruct (Qltb (best_value self) (total_impact cur)) eqn:E.
    + apply Qltb_true in E. rewrite Hbv in E.
      destruct Hcur as [[_ Hz]|Hover]; lra.
    + destruct Ha as [-> ->]. auto.
  - destruct Ha as (project & bl & br & kl & kr & Hlk & _ & _ & -> & ->
                    & _ & _ & Hkl & Hkr & ->).
    repeat (split; [assumption|]).
    pose proof (lookup_lt_Some _ _ _ Hlk) as Hlt.
    assert (Hcost : (b < cost project)%Q).
    { eapply Forall_forall in Hc; [exact Hc|].
      eapply list_elem_of_lookup_2, Hlk. }
    apply kept_cases in Hkl, Hkr.
    rewrite !Forall_app. repeat split; trivial.
    + destruct Hkr as [->| ->]; [constructor|].
      constructor; [|constructor]. split; simpl; [lia|exact Hcur].
    + destruct Hkl as [->| ->]; [constructor|].
      constructor; [|constructor]. split; simpl; [lia|].
      right. destruct Hcur as [[Hz _]|Hover]; lra.
Qed.

Lemma nothing_fits_run ps t0 t1 :
  ps <> [] -> Forall (fun p => (b < cost p)%Q) ps ->
  exists msg m self',
    run ps b t0 t1 = Some (Ok (no_solution msg m, self')).
Proof.
  intros Hne Hc.
  assert (Hinit : init ps b
                  = Ok (mkBB (sort_by_efficiency ps) b 0 0 0 0 0 None 0)).
  { unfold init. destruct ps; [congruence|].
    assert (E : Qleb b 0 = false) by (apply Qleb_false; lra).
    now rewrite E. }
  destruct (run_total ps b t0 t1) as [r Hr].
  revert Hr. unfold run. rewrite Hinit.
  set (self := mkBB _ _ _ _ _ _ _ _ _).
  assert (Hself : forall pq,
             Forall (fun node =>
               (level node <= n_projects self)%nat /\
               (((total_cost node == 0)%Q /\ (total_impact node == 0)%Q) \/
                (b < total_cost node)%Q)) pq ->
             nothing_fits_inv b self pq).
  { intros pq Hpq. repeat split; trivial. simpl.
    now rewrite sort_by_efficiency_perm. }
  unfold solve.
  destruct (calculate_bound_nonzero_costs self root) as [rb ->].
  { apply (nothing_fits_nonzero self []), Hself. constructor. }
  destruct (solve_loop _ _ _) as [lr|] eqn:Hloop; [|discriminate].
  apply (solve_loop_safe (nothing_fits_inv b) nothing_fits_perm
           nothing_fits_step nothing_fits_safe) in Hloop
    as (s & -> & (_ & _ & Hbs & _)).
  - unfold prepare_result. simpl. rewrite Hbs. intros [= <-]. eauto.
  - apply Hself. rewrite heappush_perm.
    constructor; [|constructor]. split; simpl; [lia|].
    left. split; reflexivity.
Qed.
End NothingFits.




(** ** Construction *)

(** C4, as stated, fails: a project of negative cost and one of negative
    impact are accepted by the constructor. *)
Lemma init_accepts_negative_cost_and_impact :
  (exists self,
     init [mkProject 1 "P" (-1) 5 ""; mkProject 2 "R" 3 (-2) ""] 10
     = Ok self) /\
  (cost (mkProject 1 "P" (-1) 5 "") < 0)%Q /\
  (impact (mkProject 2 "R" 3 (-2) "") < 0)%Q.
Proof. split; [eexists; reflexivity|]. split; reflexivity. Qed.

(** C4. Constructing the solver raises [ValueError], and yields no
    solver object, exactly when the project list is empty or the budget
    is not positive; for every other input, negative costs and impacts
    included, construction succeeds with the projects sorted by
    efficiency, the counters at zero and no incumbent. *)
Theorem init_raises_iff ps b :
  ((exists msg, init ps b = Raise (ValueError msg)) <->
   ps = [] \/ (b <= 0)%Q) /\
  (init ps b = Ok (mkBB (sort_by_efficiency ps) b 0 0 0 0 0 None 0) <->
   ps <> [] /\ (0 < b)%Q).
Proof.
  unfold init. destruct ps as [|p ps].
  - split; split; try discriminate; eauto.
    intros [H _]. now destruct H.
  - destruct (Qleb b 0) eqn:E.
    + apply Qleb_true in E.
      split; split; try discriminate; eauto. intros [_ H]. lra.
    + apply Qleb_false in E.
      split; split; try discriminate; eauto.
      * intros [? [=]].
      * intros [[=]|H]. lra.
Qed.

(** ** [solve] and the greedy heuristic *)


(** C5. On the four projects of [free_instance] with budget 15/2 the
    greedy heuristic returns total impact 110 and [solve] returns 101,
    less than greedy; on scenario E (budget 10) greedy returns 10 and
    [solve] 16. *)
Theorem solve_below_greedy_with_free_project :
  greedy_impact free_instance (15 # 2) = Some 110%Q /\
  solve_impact free_instance (15 # 2) = Some 101%Q /\
  greedy_impact scenario_E 10 = Some 10%Q /\
  solve_impact scenario_E 10 = Some 16%Q.
Proof. repeat split; vm_compute; reflexivity. Qed.

(** ** Repeated runs *)

(** A second call of [solve] on the same solver object starts from the
    counters and the incumbent that the first call left: it returns
    other counters than the first.  Identical results need a fresh
    solver. *)
Lemma second_solve_on_same_object_differs :
  exists r1 self1 r2 self2,
    run single_project 100 0 1 = Some (Ok (r1, self1)) /\
    solve self1 0 1 = Some (Ok (r2, self2)) /\
    erase_time r1 <> erase_time r2.
Proof.
  eexists _, _, _, _. split; [vm_compute; reflexivity|].
  split; [vm_compute; reflexivity|]. vm_compute. discriminate.
Qed.

(** C6, as stated, fails: the elapsed time is the difference of two
    clock readings, and two runs on the same projects and budget that
    take 1 and 2 seconds return different results. *)
Lemma results_differ_in_elapsed_time :
  returned (run single_project 100 0 1)
  <> returned (run single_project 100 5 7).
Proof. vm_compute. discriminate. Qed.

(** C6. Two runs of freshly constructed solvers on the same projects and
    budget return results (or raise exceptions) that are identical in
    every field except the elapsed time: the selected projects, total
    cost and impact, [nodes_expanded], the pruning counters, [max_depth]
    and the pruning efficiency do not depend on the clock. *)
Theorem solve_deterministic_up_to_time ps b t0 t1 t0' t1' :
  returned_without_time (run ps b t0 t1)
  = returned_without_time (run ps b t0' t1').
Proof.
  unfold returned_without_time, returned, run, solve.
  destruct (init ps b) as [self|e]; [|reflexivity].
  destruct (calculate_bound self root) as [rb|e]; [|reflexivity].
  destruct (solve_loop _ _ _) as [[s|e]|]; try reflexivity.
  unfold prepare_result. simpl.
  destruct (best_solution s); [|reflexivity].
  simpl. destruct (py_div _ _); reflexivity.
Qed.

(** ** Counting nodes *)

(** C7, as stated, fails: a popped leaf increments [nodes_expanded]
    although it is not expanded, and the run on one project ends with
    [nodes_expanded = 2] after expanding the root only. *)
Lemma nodes_expanded_counts_a_leaf :
  (exists self',
     process_node single_solver [] single_leaf = Ok (self', [], Leaf) /\
     nodes_expanded self' = S (nodes_expanded single_solver)) /\
  (exists b self',
     init single_project 100 = Ok single_solver /\
     calculate_bound single_solver root = Ok b /\
     solve_loop (solve_fuel single_solver) single_solver
                (heappush [] (set_bound root b)) = Some (Ok self') /\
     solve_trace (solve_fuel single_solver) single_solver
                 (heappush [] (set_bound root b)) = [Expanded; Leaf] /\
     nodes_expanded self' = 2%nat).
Proof.
  split.
  - eexists. split; [vm_compute; reflexivity|reflexivity].
  - eexists _, _. split; [reflexivity|].
    split; [vm_compute; reflexivity|].
    split; [vm_compute; reflexivity|].
    split; vm_compute; reflexivity.
Qed.

(** C7. [nodes_expanded] is incremented once for every node popped from
    the queue, whichever path the node then takes (pruned as infeasible,
    pruned by its bound, leaf, or expanded into its two children); so
    after the loop it has grown by the number of iterations made. *)
Theorem nodes_expanded_counts_popped_nodes :
  (forall self pq cur self' pq' a,
     process_node self pq cur = Ok (self', pq', a) ->
     nodes_expanded self' = S (nodes_expanded self)) /\
  (forall fuel self pq self',
     solve_loop fuel self pq = Some (Ok self') ->
     nodes_expanded self'
     = (nodes_expanded self + length (solve_trace fuel self pq))%nat).
Proof.
  assert (Hstep : forall self pq cur self' pq' a,
             process_node self pq cur = Ok (self', pq', a) ->
             nodes_expanded self' = S (nodes_expanded self)).
  { intros self pq cur self' pq' a H.
    now apply process_node_spec in H as [H _]. }
  split; [exact Hstep|].
  induction fuel as [|fuel IH]; intros self pq self'; simpl; [discriminate|].
  destruct (heappop pq) as [[cur pq1]|].
  - destruct (process_node self pq1 cur) as [[[s2 pq2] a]|e] eqn:E;
      [|discriminate].
    intros H. apply IH in H. apply Hstep in E. simpl. lia.
  - intros [= <-]. simpl. lia.
Qed.

(** The theorem at the leaf of the one-project solver. *)
Lemma nodes_expanded_counts_popped_nodes_witness :
  nodes_expanded
    (mkBB single_project 100 1 0 0 1 0 (Some single_leaf) 30)
  = S (nodes_expanded single_solver).
Proof.
  apply (proj1 nodes_expanded_counts_popped_nodes single_solver []
           single_leaf _ [] Leaf).
  vm_compute. reflexivity.
Defined.

(** ** A larger budget *)


(** C8. On the four projects of [free_instance], [solve] returns total
    impact 110 with budget 13/2 and 101 with the larger budget 15/2. *)
Theorem solve_not_monotone_with_free_project :
  (0 < 13 # 2)%Q /\ (13 # 2 <= 15 # 2)%Q /\
  solve_impact free_instance (13 # 2) = Some 110%Q /\
  solve_impact free_instance (15 # 2) = Some 101%Q /\
  (101 < 110)%Q.
Proof. repeat split; vm_compute; reflexivity || discriminate. Qed.

(** ** [calculate_bound] when nothing remains *)

(** C9, as stated, fails: with the whole budget spent, a remaining
    project of cost zero still adds its impact to the bound. *)
Lemma bound_counts_free_project_at_zero_budget :
  projects spent_solver = sort_by_efficiency (projects spent_solver) /\
  (total_cost spent_node == budget spent_solver)%Q /\
  exists b, calculate_bound spent_solver spent_node = Ok b /\
            (b == 6)%Q /\ ~ (b == total_impact spent_node)%Q.
Proof.
  split; [reflexivity|]. split; [reflexivity|].
  eexists. split; [vm_compute; reflexivity|].
  split; [reflexivity|]. vm_compute. discriminate.
Qed.

(** C9. For a node whose remaining budget is exactly zero and whose next
    undecided project, if there is one, has a strictly positive cost,
    and for every node at level [n_projects], [calculate_bound] returns
    exactly the node's [total_impact]. *)
Theorem calculate_bound_nothing_remaining self node :
  ((total_cost node == budget self)%Q /\
   (forall project, projects self !! level node = Some project ->
                    (0 < cost project)%Q)) \/
  level node = n_projects self ->
  exists b, calculate_bound self node = Ok b /\ (b == total_impact node)%Q.
Proof.
  unfold calculate_bound, n_projects. intros [[Hc Hp]| ->].
  - destruct (drop (level node) (projects self)) as [|p rest] eqn:Hd; simpl.
    + eexists. split; reflexivity.
    + assert (Hlk : projects self !! level node = Some p).
      { rewrite <- (Nat.add_0_r (level node)), <- lookup_drop, Hd.
        reflexivity. }
      apply Hp in Hlk.
      assert (E : Qleb (cost p) (budget self - total_cost node) = false)
        by (apply Qleb_false; lra).
      rewrite E, py_div_ok by lra. simpl.
      eexists. split; [reflexivity|].
      assert (Hz : (budget self - total_cost node == 0)%Q) by lra.
      rewrite Hz. field. lra.
  - rewrite drop_all. simpl. eexists. split; reflexivity.
Qed.

(** The theorem at a node that has spent the whole budget of 10, before a
    project of cost 20. *)
Lemma calculate_bound_nothing_remaining_witness :
  exists b,
    calculate_bound
      (mkBB [mkProject 1 "A" 10 1 ""; mkProject 2 "B" 20 1 ""] 10 0 0 0 0 0
            None 0)
      (mkNode 1 [1%Z] 10 1 0) = Ok b /\
    (b == total_impact (mkNode 1 [1%Z] 10 1 0))%Q.
Proof.
  apply calculate_bound_nothing_remaining. left. split.
  - reflexivity.
  - intros project [= <-]. reflexivity.
Defined.

(** ** [calculate_bound] does not divide by zero *)

(** C10. For a feasible node ([total_cost <= budget]) and non-negative
    project costs, [calculate_bound] returns a bound without raising,
    and the division [remaining_budget / project.cost], when the loop
    reaches it, has [0 <= remaining_budget < project.cost], so its
    divisor is strictly positive.  Feasibility is needed: an infeasible
    node followed by a project of cost zero divides by zero. *)
Theorem calculate_bound_division_safe :
  (forall self node,
     is_feasible self node = true ->
     Forall (fun p => (0 <= cost p)%Q) (projects self) ->
     (exists b, calculate_bound self node = Ok b) /\
     (forall x c, division_operands self node = Some (x, c) ->
                  (0 <= x)%Q /\ (x < c)%Q /\ (0 < c)%Q)) /\
  (is_feasible overspent_solver overspent_node = false /\
   Forall (fun p => (0 <= cost p)%Q) (projects overspent_solver) /\
   division_operands overspent_solver overspent_node = Some ((-1)%Q, 0%Q) /\
   calculate_bound overspent_solver overspent_node = Raise ZeroDivisionError).
Proof.
  split.
  - intros self node Hf Hc.
    apply Qleb_true in Hf.
    apply (Forall_drop _ (level node)) in Hc.
    assert (Hr : (0 <= budget self - total_cost node)%Q) by lra.
    assert (Hops : forall x c,
               division_operands self node = Some (x, c) ->
               (0 <= x)%Q /\ (x < c)%Q /\ (0 < c)%Q).
    { intros x c H.
      destruct (fraction_operands_range _ _ _ _ Hr Hc H). repeat split; lra. }
    split; [|exact Hops].
    unfold calculate_bound. unfold division_operands in Hops.
    pose proof (bound_loop_operands (drop (level node) (projects self))
                  (total_impact node) (budget self - total_cost node)%Q) as H.
    destruct (fraction_operands _ _) as [[x c]|]; [|exact H].
    destruct H as [H _]. apply H.
    destruct (Hops x c eq_refl) as (_ & _ & Hpos). lra.
  - split; [reflexivity|].
    split; [repeat constructor; simpl; lra|].
    split; vm_compute; reflexivity.
Qed.

(** The theorem at a root node of two projects with budget 5. *)
Lemma calculate_bound_division_safe_witness :
  (exists b,
     calculate_bound
       (mkBB [mkProject 1 "A" 6 10 ""; mkProject 2 "B" 5 1 ""] 5 0 0 0 0 0
             None 0) root = Ok b) /\
  (forall x c,
     division_operands
       (mkBB [mkProject 1 "A" 6 10 ""; mkProject 2 "B" 5 1 ""] 5 0 0 0 0 0
             None 0) root = Some (x, c) ->
     (0 <= x)%Q /\ (x < c)%Q /\ (0 < c)%Q).
Proof.
  apply (proj1 calculate_bound_division_safe).
  - reflexivity.
  - repeat constructor; simpl; lra.
Defined.

(** ** The nodes are selections of projects *)

Lemma tracked_inv_perm ps b self pq pq' :
  pq ≡ₚ pq' -> tracked_inv ps b self pq -> tracked_inv ps b self pq'.
Proof. unfold tracked_inv. now intros ->. Qed.

Lemma tracked_children ps self cur project bl br kl kr :
  projects self = ps ->
  projects self !! level cur = Some project ->
  kept self (left_child cur project) bl kl ->
  kept self (right_child cur) br kr ->
  tracked ps cur ->
  Forall (tracked ps) (kr ++ kl).
Proof.
  intros Hp Hlk Hkl Hkr (_ & s1 & Hs1 & Hsel & Hc & Hi).
  rewrite Hp in Hlk. pose proof (lookup_lt_Some _ _ _ Hlk) as Hlt.
  apply kept_cases in Hkl, Hkr. apply Forall_app. split.
  - destruct Hkr as [->| ->]; [constructor|].
    constructor; [|constructor]. split; simpl; [lia|].
    exists s1. rewrite Nat.add_1_r, (take_S_r _ _ _ Hlk).
    split; [now apply sublist_inserts_r|]. now repeat split.
  - destruct Hkl as [->| ->]; [constructor|].
    constructor; [|constructor]. split; simpl; [lia|].
    exists (s1 ++ [project]). rewrite Nat.add_1_r, (take_S_r _ _ _ Hlk).
    split; [now apply sublist_app|].
    rewrite fmap_app, Hsel, sum_cost_app, sum_impact_app, Hc, Hi. simpl.
    split; [reflexivity|]. split; lra.
Qed.

Lemma tracked_inv_step ps b self pq cur self' pq' a :
  tracked_inv ps b self (cur :: pq) ->
  process_node self pq cur = Ok (self', pq', a) ->
  tracked_inv ps b self' pq'.
Proof.
  intros (Hp & Hb & Hq & Hbest) Hstep.
  apply Forall_cons in Hq as [Hcur Hq].
  apply process_node_spec in Hstep as (_ & _ & Hp' & Hb' & Ha).
  unfold tracked_inv. rewrite Hp', Hb'.
  split; [exact Hp|]. split; [exact Hb|].
  destruct a.
  - destruct Ha as (-> & _ & -> & _). now split.
  - destruct Ha as (-> & _ & _ & -> & _). now split.
  - destruct Ha as (-> & Hl & Hf & _ & Ha). split; [assumption|].
    destruct (Qltb (best_value self) (total_impact cur)).
    + destruct Ha as [-> _]. split; [assumption|].
      unfold n_projects in Hl. rewrite Hp in Hl. split; [assumption|].
      apply Qleb_true in Hf. now rewrite Hb in Hf.
    + now destruct Ha as [-> _].
  - destruct Ha as (project & bl & br & kl & kr & Hlk & _ & _ & -> & _
                    & _ & _ & Hkl & Hkr & Hperm).
    split; [|assumption].
    rewrite Hperm, app_assoc. apply Forall_app. split; [|assumption].
    eapply tracked_children; eauto.
Qed.

Lemma filter_agree {A} (P Q : A -> Prop)
  `{forall x, Decision (P x)} `{forall x, Decision (Q x)} (l : list A) :
  (forall x, x ∈ l -> (P x <-> Q x)) -> filter P l = filter Q l.
Proof.
  induction l as [|x l IH]; intros Hl; [reflexivity|].
  assert (Hx : P x <-> Q x) by (apply Hl; apply list_elem_of_here).
  assert (Hrest : filter P l = filter Q l).
  { apply IH. intros y Hy. apply Hl. now apply list_elem_of_further. }
  destruct (decide (P x)) as [HP|HP].
  - rewrite !filter_cons_True by tauto. now rewrite Hrest.
  - rewrite !filter_cons_False by tauto. exact Hrest.
Qed.

Lemma id_in_elem (p : Project) ids : id_in p ids = true <-> id p ∈ ids.
Proof.
  unfold id_in. rewrite existsb_exists. split.
  - intros (x & Hx & E). apply Z.eqb_eq in E. subst.
    now apply list_elem_of_In.
  - intros H. exists (id p). split; [now apply list_elem_of_In|].
    apply Z.eqb_refl.
Qed.

(** Selecting by id gives back the selection when the ids are distinct. *)
Lemma filter_ids_sublist ps : forall s,
  NoDup (id <$> ps) -> s `sublist_of` ps ->
  filter (fun p => id_in p (id <$> s) = true) ps = s.
Proof.
  induction ps as [|x ps IH]; intros s Hnd Hs.
  - apply sublist_nil_r in Hs as ->. reflexivity.
  - simpl in Hnd. apply NoDup_cons in Hnd as [Hx Hnd].
    apply sublist_cons_r in Hs as [Hs|(s' & -> & Hs)].
    + rewrite filter_cons_False.
      * now apply IH.
      * rewrite id_in_elem. intros H. apply Hx.
        apply list_elem_of_fmap in H as (q & Hq & Hqs).
        apply list_elem_of_fmap. exists q. split; [assumption|].
        eapply elem_of_sublist; eassumption.
    + rewrite filter_cons_True
        by (rewrite id_in_elem; simpl; apply list_elem_of_here).
      f_equal.
      transitivity (filter (fun p => id_in p (id <$> s') = true) ps);
        [|now apply IH].
      apply filter_agree. intros p Hp. rewrite !id_in_elem. simpl.
      rewrite elem_of_cons. split; [|auto].
      intros [E|H]; [|exact H]. exfalso. apply Hx.
      apply list_elem_of_fmap. exists p. now split.
Qed.

(** ** What an optimal result reports *)

(** What a normal return of [run] went through. *)
Lemma run_inversion ps b t0 t1 r self' :
  run ps b t0 t1 = Some (Ok (r, self')) ->
  ps <> [] /\ (0 < b)%Q /\
  exists rb s,
    calculate_bound (fresh_solver ps b) root = Ok rb /\
    solve_loop (solve_fuel (fresh_solver ps b)) (fresh_solver ps b)
               (heappush [] (set_bound root rb)) = Some (Ok s) /\
    self' = set_execution_time s (t1 - t0)%Q /\
    prepare_result self' = Ok r.
Proof.
  unfold run, init. destruct ps as [|p ps]; [discriminate|].
  destruct (Qleb b 0) eqn:E; [discriminate|]. apply Qleb_false in E.
  change (mkBB (sort_by_efficiency (p :: ps)) b 0 0 0 0 0 None 0)
    with (fresh_solver (p :: ps) b).
  unfold solve.
  destruct (calculate_bound _ root) as [rb|e] eqn:Hrb; [|discriminate].
  destruct (solve_loop _ _ _) as [[s|e]|] eqn:Hloop; try discriminate.
  destruct (prepare_result _) as [r'|e] eqn:Hr; [|discriminate].
  intros [= <- <-]. split; [discriminate|]. split; [assumption|].
  exists rb, s. split; [reflexivity|]. split; [exact Hloop|].
  split; [reflexivity|exact Hr].
Qed.

Lemma py_sum_impact l : (py_sum (impact <$> l) == sum_impact l)%Q.
Proof.
  unfold py_sum.
  assert (H : forall a, (foldl Qplus a (impact <$> l) == a + sum_impact l)%Q).
  { induction l as [|p l IH]; intros a; simpl; [lra|]. rewrite IH. lra. }
  rewrite H. lra.
Qed.

(** After the loop the incumbent of a fresh solver is a tracked leaf. *)
Lemma run_tracked ps b t0 t1 r self' :
  run ps b t0 t1 = Some (Ok (r, self')) ->
  (0 < b)%Q /\ prepare_result self' = Ok r /\
  tracked_inv (sort_by_efficiency ps) b self' [].
Proof.
  intros H. apply run_inversion in H
    as (_ & Hb & rb & s & _ & Hloop & -> & Hr).
  split; [assumption|]. split; [assumption|].
  apply (solve_loop_invariant (tracked_inv (sort_by_efficiency ps) b)) in Hloop.
  - exact Hloop.
  - apply tracked_inv_perm.
  - apply tracked_inv_step.
  - split; [reflexivity|]. split; [reflexivity|]. split; [|exact I].
    rewrite heappush_perm. constructor; [|constructor].
    split; simpl; [lia|]. exists [].
    split; [apply sublist_nil_l|]. repeat split; reflexivity.
Qed.


(** With distinct ids the projects listed by an optimal result are the
    selection of the incumbent. *)
Lemma run_optimal_selection ps b t0 t1 sol m d self' :
  NoDup (id <$> ps) ->
  run ps b t0 t1 = Some (Ok (optimal sol m d, self')) ->
  selected_projects sol `sublist_of` sort_by_efficiency ps /\
  (sum_cost (selected_projects sol) == s_total_cost sol)%Q /\
  (sum_impact (selected_projects sol) == s_total_impact sol)%Q /\
  n_projects_selected sol = length (selected_projects sol) /\
  (s_total_cost sol <= b)%Q.
Proof.
  intros Hnd H. apply run_tracked in H as (Hb & Hr & Hp & Hbud & _ & Hbest).
  revert Hr. unfold prepare_result.
  destruct (best_solution self') as [best|]; [|discriminate].
  destruct Hbest as ((_ & s1 & Hs1 & Hsel & Hc & Hi) & Hl & Hcost).
  rewrite Hl, firstn_all in Hs1.
  rewrite Hbud, py_div_ok by lra.
  cbn [mbind res_bind]. intros [= <- _ _].
  assert (Hf : filter (fun p => id_in p (selected best) = true)
                      (projects self') = s1).
  { rewrite Hp, Hsel. apply filter_ids_sublist; [|assumption].
    now rewrite sort_by_efficiency_perm. }
  cbn [selected_projects s_total_cost s_total_impact n_projects_selected].
  rewrite Hf.
  split; [assumption|]. split; [now symmetry|]. split; [now symmetry|].
  split; [reflexivity|assumption].
Qed.

(** A result within the budget whose impact is that of its projects
    passes [validate_solution]. *)
Lemma validate_solution_ok sol m d ps b :
  (s_total_cost sol <= b)%Q ->
  (sum_impact (selected_projects sol) == s_total_impact sol)%Q ->
  validate_solution (solve_dict (optimal sol m d)) ps b = true.
Proof.
  intros Hc Hi.
  assert (E1 : Qltb b (s_total_cost sol) = false) by now apply Qltb_false.
  assert (E2 : Qltb (1 # 100)
                 (Qabs (py_sum (impact <$> selected_projects sol)
                        - s_total_impact sol)) = false).
  { apply Qltb_false. apply Qabs_Qle_condition.
    pose proof (py_sum_impact (selected_projects sol)). split; lra. }
  unfold validate_solution. now rewrite E1, E2.
Qed.


(** ** Counters and exceptions of a run *)

Lemma process_node_levels self pq cur self' pq' a :
  (level cur <= n_projects self)%nat ->
  Forall (fun node => (level node <= n_projects self)%nat) pq ->
  process_node self pq cur = Ok (self', pq', a) ->
  n_projects self' = n_projects self /\
  Forall (fun node => (level node <= n_projects self)%nat) pq' /\
  (sum_list_with (weight (n_projects self)) pq'
   < weight (n_projects self) cur + sum_list_with (weight (n_projects self)) pq)%nat.
Proof.
  intros Hcur Hlv Hstep.
  pose proof (weight_pos _ _ Hcur) as Hpos.
  apply process_node_spec in Hstep as (_ & _ & Hp & _ & Ha).
  split; [unfold n_projects; now rewrite Hp|].
  destruct a; try (destruct Ha as [-> _]; split; [assumption|lia]).
  destruct Ha as (project & bl & br & kl & kr & Hlk & _ & _ & _ & _ & _ & _
                  & Hkl & Hkr & ->).
  apply lookup_lt_Some in Hlk. fold (n_projects self) in Hlk.
  apply kept_cases in Hkl, Hkr.
  pose proof (weight_children (n_projects self) cur
                (set_bound (left_child cur project) bl)
                (set_bound (right_child cur) br) Hlk eq_refl eq_refl).
  split.
  - rewrite !Forall_app. repeat split; trivial.
    + destruct Hkr as [->| ->]; [constructor|].
      constructor; [|constructor]. simpl. lia.
    + destruct Hkl as [->| ->]; [constructor|].
      constructor; [|constructor]. simpl. lia.
  - rewrite !sum_list_with_app.
    destruct Hkl as [->| ->], Hkr as [->| ->]; simpl; lia.
Qed.

Lemma counters_inv_perm self pq pq' :
  pq ≡ₚ pq' -> counters_inv self pq -> counters_inv self pq'.
Proof.
  intros Hperm (H1 & H2 & H3 & H4). rewrite Hperm in H1, H2.
  repeat (split; [assumption|]).
  destruct H4 as [H4|H4]; [left|now right].
  intros ->. apply Permutation_nil_r in Hperm. contradiction.
Qed.

Lemma counters_inv_step self pq cur self' pq' a :
  counters_inv self (cur :: pq) ->
  process_node self pq cur = Ok (self', pq', a) ->
  counters_inv self' pq'.
Proof.
  intros (Hlv & Hw & Hd & _) Hstep.
  apply Forall_cons in Hlv as [Hcur Hlv].
  change (sum_list_with (weight (n_projects self)) (cur :: pq))
    with (weight (n_projects self) cur
          + sum_list_with (weight (n_projects self)) pq)%nat in Hw.
  destruct (process_node_levels _ _ _ _ _ _ Hcur Hlv Hstep) as (Hn & Hlv' & Hw').
  apply process_node_spec in Hstep as (Hne & Hmd & _).
  unfold counters_inv. rewrite Hn, Hne, Hmd.
  split; [assumption|]. split; [lia|]. split; [lia|]. right. lia.
Qed.

(** X6. For a fresh solver on [n] projects the counters of the result
    are bounded by the search tree: between 1 and [2 ^ (n + 1) - 1]
    nodes are popped, [max_depth] is at most [n], and
    [nodes_pruned_total] is the sum of the two pruning counters. *)
Theorem solve_counters_bounded ps b t0 t1 r self' :
  run ps b t0 t1 = Some (Ok (r, self')) ->
  (1 <= m_nodes_expanded (result_metrics r) <= 2 ^ S (length ps) - 1)%nat /\
  (m_max_depth (result_metrics r) <= length ps)%nat /\
  m_nodes_pruned_total (result_metrics r)
  = (m_nodes_pruned_infeasible (result_metrics r)
     + m_nodes_pruned_bound (result_metrics r))%nat.
Proof.
  intros H. apply run_inversion in H
    as (_ & Hb & rb & s & _ & Hloop & -> & Hr).
  pose proof Hloop as Hloop'.
  apply (solve_loop_invariant counters_inv counters_inv_perm
           counters_inv_step) in Hloop.
  - destruct Hloop as (_ & Hw & Hd & Hne).
    assert (Hn : n_projects s = length ps).
    { apply (solve_loop_invariant
               (fun self _ => n_projects self = length ps)) in Hloop'.
      - exact Hloop'.
      - auto.
      - intros ? ? ? ? ? ? Hi Hstep.
        apply process_node_spec in Hstep as (_ & _ & Hp & _).
        unfold n_projects in *. now rewrite Hp.
      - unfold n_projects, fresh_solver. simpl.
        now rewrite sort_by_efficiency_perm. }
    rewrite Hn in Hw, Hd. change (sum_list_with _ []) with 0%nat in Hw.
    assert (Hm : result_metrics r
                 = get_metrics (set_execution_time s (t1 - t0)%Q)).
    { revert Hr. unfold prepare_result.
      destruct (best_solution _); [|now intros [= <-]].
      destruct (py_div _ _); [|discriminate]. now intros [= <-]. }
    rewrite Hm. simpl.
    split; [|split; [assumption|reflexivity]].
    destruct Hne as [Hne|Hne]; [congruence|].
    rewrite Nat.pow_succ_r' in Hw. lia.
  - apply (counters_inv_perm _ [set_bound root rb]);
      [symmetry; apply heappush_perm|].
    split; [constructor; [simpl; lia|constructor]|].
    split; [|split; [simpl; lia|left; discriminate]].
    simpl. unfold weight. simpl level.
    rewrite Nat.sub_0_r, Nat.pow_succ_r'. lia.
Qed.

(** [calculate_bound] raises nothing but [ZeroDivisionError]. *)
Lemma bound_loop_raise ps : forall b r e,
  bound_loop ps b r = Raise e -> e = ZeroDivisionError.
Proof.
  induction ps as [|p ps IH]; intros b r e; simpl; [discriminate|].
  destruct (Qleb (cost p) r); [apply IH|].
  unfold py_div. destruct (Qeq_bool (cost p) 0); simpl; [|discriminate].
  now intros [= <-].
Qed.

Lemma push_child_raise self pq child e :
  push_child self pq child = Raise e -> e = ZeroDivisionError.
Proof.
  unfold push_child, calculate_bound.
  destruct (bound_loop _ _ _) as [v|e'] eqn:E; simpl.
  - destruct (should_prune _ _) as [s [p r]]. discriminate.
  - intros [= <-]. eapply bound_loop_raise, E.
Qed.

Lemma process_node_raise self pq cur e :
  (level cur <= n_projects self)%nat ->
  process_node self pq cur = Raise e -> e = ZeroDivisionError.
Proof.
  intros Hl. unfold process_node.
  destruct (should_prune (count_node self cur) cur) as [s1 [p r]] eqn:Hsp.
  apply should_prune_spec in Hsp as ((Hp & _) & _). simpl in Hp.
  destruct p; [discriminate|].
  unfold n_projects in *. rewrite Hp.
  destruct (Nat.eqb_spec (level cur) (length (projects self)));
    [discriminate|].
  destruct (lookup_lt_is_Some_2 (projects self) (level cur)) as [project ->];
    [lia|].
  destruct (push_child s1 pq _) as [[s2 pq2]|e2] eqn:H2; simpl.
  - destruct (push_child s2 pq2 _) as [[s3 pq3]|e3] eqn:H3; simpl;
      [discriminate|].
    intros [= <-]. eapply push_child_raise, H3.
  - intros [= <-]. eapply push_child_raise, H2.
Qed.

Lemma solve_loop_raise fuel : forall self pq e,
  Forall (fun node => (level node <= n_projects self)%nat) pq ->
  solve_loop fuel self pq = Some (Raise e) -> e = ZeroDivisionError.
Proof.
  induction fuel as [|fuel IH]; intros self pq e Hlv; simpl; [discriminate|].
  destruct (heappop pq) as [[cur pq1]|] eqn:Hpop; [|discriminate].
  apply heappop_perm in Hpop. rewrite Hpop in Hlv.
  apply Forall_cons in Hlv as [Hcur Hlv].
  destruct (process_node self pq1 cur) as [[[s2 pq2] a]|e2] eqn:Hstep.
  - destruct (process_node_levels _ _ _ _ _ _ Hcur Hlv Hstep)
      as (Hn & Hlv' & _).
    apply IH. now rewrite Hn.
  - intros [= <-]. eapply process_node_raise; eassumption.
Qed.

(** Without a project of cost zero a fresh solver returns normally. *)
Lemma run_ok_nonzero_costs ps b t0 t1 :
  ps <> [] -> (0 < b)%Q ->
  Forall (fun p => ~ (cost p == 0)%Q) ps ->
  exists r self', run ps b t0 t1 = Some (Ok (r, self')).
Proof.
  intros Hne Hb Hnz.
  destruct (run_total ps b t0 t1) as [[[r self']|e] Hr]; [eauto|].
  exfalso. revert Hr. unfold run. rewrite (init_ok ps b Hne Hb).
  fold (fresh_solver ps b). unfold solve.
  destruct (calculate_bound_nonzero_costs (fresh_solver ps b) root)
    as [rb ->].
  { simpl. now rewrite sort_by_efficiency_perm. }
  destruct (solve_loop _ _ _) as [lr|] eqn:Hloop; [|discriminate].
  apply (solve_loop_safe
           (fun self pq =>
              Forall (fun p => ~ (cost p == 0)%Q) (projects self) /\
              (0 < budget self)%Q /\
              Forall (fun node => (level node <= n_projects self)%nat) pq))
    in Hloop as (s & -> & _ & Hbs & _).
  - unfold prepare_result. simpl.
    destruct (best_solution s); [|discriminate].
    rewrite py_div_ok by lra. discriminate.
  - intros self pq pq' Hperm (H1 & H2 & H3). now rewrite <- Hperm.
  - intros self pq cur self' pq' a (H1 & H2 & H3) Hstep.
    apply Forall_cons in H3 as [Hcur H3].
    destruct (process_node_levels _ _ _ _ _ _ Hcur H3 Hstep)
      as (Hn & Hlv' & _).
    apply process_node_spec in Hstep as (_ & _ & Hp & Hbud & _).
    rewrite Hp, Hbud, Hn. now repeat split.
  - intros self pq cur (H1 & _ & H3).
    apply Forall_cons in H3 as [Hcur _]. now apply process_node_safe.
  - split; [simpl; now rewrite sort_by_efficiency_perm|].
    split; [assumption|]. rewrite heappush_perm.
    constructor; [simpl; lia|constructor].
Qed.

(** X7. The exceptions of constructing and solving: [ValueError] for an
    empty list or a budget that is not positive, and otherwise nothing
    but [ZeroDivisionError], which needs a project of cost zero.  The
    lookup [self.projects[current_node.level]] never raises. *)
Theorem run_exceptions ps b t0 t1 e :
  run ps b t0 t1 = Some (Raise e) ->
  ((exists msg, e = ValueError msg) /\ (ps = [] \/ (b <= 0)%Q)) \/
  (e = ZeroDivisionError /\ ps <> [] /\ (0 < b)%Q /\
   Exists (fun p => (cost p == 0)%Q) ps).
Proof.
  intros H.
  destruct ps as [|p ps]; [left|].
  { revert H. unfold run, init. intros [= <-]. eauto. }
  destruct (Qlt_le_dec 0 b) as [Hb|Hb]; [right|left].
  - assert (Hne : p :: ps <> []) by discriminate.
    assert (He : e = ZeroDivisionError).
    { revert H. unfold run. rewrite (init_ok _ b Hne Hb).
      fold (fresh_solver (p :: ps) b). unfold solve.
      destruct (calculate_bound _ root) as [rb|e'] eqn:Hrb.
      - destruct (solve_loop _ _ _) as [[s|e']|] eqn:Hloop; try discriminate.
        + unfold prepare_result. destruct (best_solution _); [|discriminate].
          unfold py_div. destruct (Qeq_bool _ _); simpl; [|discriminate].
          now intros [= <-].
        + intros [= <-]. eapply solve_loop_raise; [|exact Hloop].
          rewrite heappush_perm. constructor; [simpl; lia|constructor].
      - intros [= <-]. eapply bound_loop_raise, Hrb. }
    repeat (split; [assumption|]).
    destruct (Forall_Exists_dec (fun q => ~ (cost q == 0)%Q)
                (fun q => (cost q == 0)%Q)
                (fun q => match Qeq_dec (cost q) 0 with
                          | left E => right E
                          | right E => left E
                          end) (p :: ps)) as [Hall|Hex]; [|assumption].
    destruct (run_ok_nonzero_costs _ b t0 t1 Hne Hb Hall) as (r & s & Hr).
    congruence.
  - revert H. unfold run, init.
    assert (E : Qleb b 0 = true) by now apply Qleb_true.
    rewrite E. intros [= <-]. eauto.
Qed.

Lemma solve_trace_feasible fuel : forall self pq,
  Forall (fun node => is_feasible self node = true) pq ->
  PrunedInfeasible ∉ solve_trace fuel self pq.
Proof.
  induction fuel as [|fuel IH]; intros self pq Hf; simpl;
    [apply not_elem_of_nil|].
  destruct (heappop pq) as [[cur pq1]|] eqn:Hpop; [|apply not_elem_of_nil].
  apply heappop_perm in Hpop. rewrite Hpop in Hf.
  apply Forall_cons in Hf as [Hcur Hf].
  destruct (process_node self pq1 cur) as [[[s2 pq2] a]|e] eqn:Hstep;
    [|apply not_elem_of_nil].
  apply process_node_spec in Hstep as (_ & _ & _ & Hb & Ha).
  assert (Hf' : forall pq', Forall (fun node => is_feasible self node = true) pq'
                            -> Forall (fun node => is_feasible s2 node = true) pq').
  { intros pq' H. eapply Forall_impl; [exact H|]. intros node. simpl.
    now rewrite (is_feasible_frame self s2). }
  apply not_elem_of_cons. split.
  - destruct a; try discriminate. destruct Ha as (_ & Hinf & _). congruence.
  - apply IH, Hf'. destruct a; try (destruct Ha as [-> _]; assumption).
    destruct Ha as (project & bl & br & kl & kr & _ & _ & _ & _ & _ & _ & _
                    & Hkl & Hkr & ->).
    rewrite !Forall_app. repeat split; trivial.
    + destruct Hkr as [[-> _]|[-> [H _]]]; [constructor|].
      constructor; [exact H|constructor].
    + destruct Hkl as [[-> _]|[-> [H _]]]; [constructor|].
      constructor; [exact H|constructor].
Qed.

(** X8. In the loop of a constructed solver no popped node is pruned as
    infeasible: infeasible children are rejected before they enter the
    queue, so [nodes_pruned_infeasible] counts rejected children only. *)
Theorem popped_nodes_are_feasible ps b self rb :
  init ps b = Ok self ->
  PrunedInfeasible
  ∉ solve_trace (solve_fuel self) self (heappush [] (set_bound root rb)).
Proof.
  intros Hinit. apply solve_trace_feasible.
  rewrite heappush_perm. constructor; [|constructor].
  revert Hinit. unfold init. destruct ps; [discriminate|].
  destruct (Qleb b 0) eqn:E; [discriminate|]. apply Qleb_false in E.
  intros [= <-]. apply Qleb_true. simpl. lra.
Qed.

Lemma Qnat_le n m : (n <= m)%nat -> (Qnat n <= Qnat m)%Q.
Proof.
  intros H. unfold Qnat. rewrite <- Zle_Qle. lia.
Qed.

(** X9. Whatever the counters of the solver, [_get_metrics] reports
    their sum as [nodes_pruned_total] and a [pruning_efficiency_pct]
    between 0 and 100, which is 0 when no node was counted. *)
Theorem get_metrics_range self :
  m_nodes_pruned_total (get_metrics self)
  = (nodes_pruned_infeasible self + nodes_pruned_bound self)%nat /\
  (0 <= m_pruning_efficiency_pct (get_metrics self))%Q /\
  (m_pruning_efficiency_pct (get_metrics self) <= 100)%Q /\
  ((nodes_expanded self + nodes_pruned_infeasible self
    + nodes_pruned_bound self = 0)%nat ->
   m_pruning_efficiency_pct (get_metrics self) = 0%Q).
Proof.
  unfold get_metrics.
  cbn [m_nodes_pruned_total m_pruning_efficiency_pct].
  set (tp := (nodes_pruned_infeasible self + nodes_pruned_bound self)%nat).
  set (tot := (nodes_expanded self + tp)%nat).
  split; [reflexivity|].
  destruct (Nat.ltb_spec 0 tot) as [Hpos|Hz].
  - assert (Hd : (0 < Qnat tot)%Q).
    { unfold Qnat. rewrite <- (Zlt_Qlt 0). lia. }
    assert (H0 : (0 <= Qnat tp)%Q) by apply (Qnat_le 0), Nat.le_0_l.
    assert (H1 : (Qnat tp <= Qnat tot)%Q) by (apply Qnat_le; unfold tot; lia).
    assert (Hq0 : (0 <= Qnat tp / Qnat tot)%Q).
    { apply Qle_shift_div_l; [assumption|]. lra. }
    assert (Hq1 : (Qnat tp / Qnat tot <= 1)%Q).
    { apply Qle_shift_div_r; [assumption|]. lra. }
    split; [lra|]. split; [lra|]. unfold tot, tp in Hpos. lia.
  - split; [lra|]. split; [lra|]. reflexivity.
Qed.

(** ** The greedy heuristic and the sort *)



(** The sort keeps the relative order of the projects of any given
    efficiency. *)
Lemma insert_desc_filter e p l :
  List.filter (fun q => Qeq_bool (efficiency q) e) (insert_desc p l)
  = List.filter (fun q => Qeq_bool (efficiency q) e) (p :: l).
Proof.
  induction l as [|q l IH]; [reflexivity|].
  cbn [insert_desc].
  destruct (Qltb (efficiency p) (efficiency q)) eqn:E; [|reflexivity].
  apply Qltb_true in E.
  cbn [List.filter] in *. rewrite IH.
  destruct (Qeq_bool (efficiency p) e) eqn:Ep; [|reflexivity].
  destruct (Qeq_bool (efficiency q) e) eqn:Eq; [|reflexivity].
  apply Qeq_bool_iff in Ep, Eq. lra.
Qed.

Lemma sort_sorted_id l : sorted_desc l -> sort_by_efficiency l = l.
Proof.
  induction l as [|p l IH]; [reflexivity|].
  intros [Hp Hl]. simpl. rewrite (IH Hl).
  destruct l as [|q l]; [reflexivity|]. simpl.
  apply Forall_cons in Hp as [Hq _].
  assert (E : Qltb (efficiency p) (efficiency q) = false)
    by now apply Qltb_false.
  now rewrite E.
Qed.

(** X11. The sort of [__init__] (and of [greedy_heuristic]) rearranges
    the projects without loss, in non-increasing efficiency, keeps the
    order of projects of equal efficiency, and leaves an already sorted
    list as it is. *)
Theorem sort_by_efficiency_spec l :
  sort_by_efficiency l ≡ₚ l /\
  sorted_desc (sort_by_efficiency l) /\
  (forall e,
     List.filter (fun q => Qeq_bool (efficiency q) e) (sort_by_efficiency l)
     = List.filter (fun q => Qeq_bool (efficiency q) e) l) /\
  sort_by_efficiency (sort_by_efficiency l) = sort_by_efficiency l.
Proof.
  split; [apply sort_by_efficiency_perm|].
  split; [apply sort_by_efficiency_sorted|]. split.
  - intros e. induction l as [|p l IH]; [reflexivity|].
    simpl sort_by_efficiency. rewrite insert_desc_filter.
    cbn [List.filter]. now rewrite IH.
  - apply sort_sorted_id, sort_by_efficiency_sorted.
Qed.

Lemma sum_impact_nonneg s :
  Forall (fun p => (0 <= impact p)%Q) s -> (0 <= sum_impact s)%Q.
Proof. induction 1; simpl; lra. Qed.



(** When all the projects fit, the optimum is the impact of all. *)
Lemma is_optimum_all_fit ps b v :
  positive_costs ps -> (sum_cost ps <= b)%Q ->
  is_optimum ps b v -> (v == sum_impact ps)%Q.
Proof.
  intros Hpos Hfit [(s & Hs & Hc & Hv) Hmax].
  apply Qle_antisym; [|now apply Hmax].
  rewrite <- Hv.
  apply submseteq_Permutation in Hs as [rest Hperm].
  rewrite (sum_impact_perm _ _ Hperm), sum_impact_app.
  assert (0 <= sum_impact rest)%Q; [|lra].
  apply sum_impact_nonneg.
  assert (H : Forall (fun p => (0 < cost p)%Q /\ (0 <= impact p)%Q)
                     (s ++ rest)) by now rewrite <- Hperm.
  apply Forall_app in H as [_ H].
  eapply Forall_impl; [exact H|]. now intros p [_ Hp].
Qed.


(** ** The sensitivity analysis *)






Lemma sensitivity_loop_raise ps budgets clock : forall plist i results,
  plist ≡ₚ ps -> ps <> [] -> positive_costs ps ->
  Exists (fun b => (b <= 0)%Q) budgets ->
  sensitivity_loop plist budgets clock i results
  = Some (Raise (ValueError "Orçamento deve ser positivo")).
Proof.
  induction budgets as [|b budgets IH];
    intros plist i results Hperm Hne Hpos Hex.
  - now apply Exists_nil in Hex.
  - assert (Hne' : plist <> []).
    { intros ->. apply Permutation_nil_l in Hperm. congruence. }
    simpl. destruct (Qlt_le_dec 0 b) as [Hb|Hb].
    + assert (Hpos' : positive_costs plist)
        by (unfold positive_costs; now rewrite Hperm).
      destruct (solve_optimal_positive_costs plist b (clock i).1
                  (clock i).2 Hne' Hb Hpos') as (r & self' & Hrun & _).
      revert Hrun. unfold run. rewrite (init_ok plist b Hne' Hb).
      intros ->. cbn [sorted_in_place projects].
      apply IH; trivial.
      * now rewrite sort_by_efficiency_perm.
      * apply Exists_cons in Hex as [Hex|Hex]; [lra|assumption].
    + unfold init. destruct plist; [congruence|].
      assert (E : Qleb b 0 = true) by now apply Qleb_true.
      now rewrite E.
Qed.

(** X15. One budget that is not positive makes the whole analysis fail:
    [run_sensitivity_analysis] raises the [ValueError] of the
    constructor and returns no table, also for the budgets before it. *)
Theorem run_sensitivity_analysis_raises ps base_budget budgets clock :
  ps <> [] -> positive_costs ps -> Exists (fun b => (b <= 0)%Q) budgets ->
  run_sensitivity_analysis ps base_budget budgets clock
  = Some (Raise (ValueError "Orçamento deve ser positivo")).
Proof.
  intros Hne Hpos Hex. now apply sensitivity_loop_raise with (ps := ps).
Qed.

(** ** Projects that share an id *)



(** ** The retention portfolio *)

Lemma retention_projects_valid :
  retention_projects <> [] /\ positive_costs retention_projects /\
  NoDup (id <$> retention_projects) /\
  Forall (fun p => (30 <= cost p)%Q) retention_projects /\
  (sum_cost retention_projects == 1080)%Q /\
  (sum_impact retention_projects == 210)%Q.
Proof.
  split; [discriminate|]. split.
  { repeat constructor; vm_compute; discriminate. }
  split.
  { apply (bool_decide_unpack (NoDup (id <$> retention_projects))).
    vm_compute. exact I. }
  split.
  { repeat constructor; vm_compute; discriminate. }
  split; vm_compute; reflexivity.
Qed.

(** X17. On the portfolio of [create_retention_projects], for every
    positive budget [solve] returns the optimum without raising; below
    30, the cost of the cheapest project, the status is
    ["no_solution"]; from 30 on it is ["optimal"] and
    [validate_solution] accepts the result; from 1080 on, the cost of
    the whole portfolio, the impact is 210, that of all 15 projects. *)
Theorem retention_portfolio_solved b t0 t1 :
  (0 < b)%Q ->
  exists r self',
    run retention_projects b t0 t1 = Some (Ok (r, self')) /\
    is_optimum retention_projects b (result_value r) /\
    ((b < 30)%Q -> is_optimal r = false) /\
    ((30 <= b)%Q ->
     is_optimal r = true /\
     validate_solution (solve_dict r) retention_projects b = true) /\
    ((1080 <= b)%Q -> (result_value r == 210)%Q).
Proof.
  intros Hb.
  destruct retention_projects_valid as (Hne & Hpos & Hnd & Hmin & Hc & Hi).
  destruct (solve_optimal_positive_costs _ b t0 t1 Hne Hb Hpos)
    as (r & self' & Hrun & Hopt & _).
  exists r, self'. split; [exact Hrun|]. split; [exact Hopt|].
  split; [|split].
  - intros Hlt.
    destruct (nothing_fits_run b Hb retention_projects t0 t1 Hne)
      as (msg & m & s & Hno).
    { eapply Forall_impl; [exact Hmin|]. simpl. intros. lra. }
    rewrite Hno in Hrun. now injection Hrun as <- _.
  - intros Hge.
    assert (Hval : (14 <= result_value r)%Q).
    { destruct Hopt as [_ Hmax].
      apply (Hmax [mkProject 7 "Flexibilização de Horários e Home Office"
                             30 14 "Bem-estar"]).
      - apply sublist_submseteq. unfold retention_projects.
        repeat constructor.
      - simpl. lra. }
    destruct r as [msg m|sol m d]; [simpl in Hval; lra|].
    split; [reflexivity|].
    destruct (run_optimal_selection _ _ _ _ _ _ _ _ Hnd Hrun)
      as (_ & _ & Himp & _ & Hcost).
    now apply validate_solution_ok.
  - intros Hall. rewrite <- Hi.
    apply (is_optimum_all_fit _ b); [assumption|lra|assumption].
Qed.

(** ** A second call of [solve] on the same solver *)

Section Again.
Variable ps : list Project.
Variable b : Q.
Variable bs0 : option Node.
Variable v0 : Q.
Variable n0 : nat.
Hypothesis ps_sorted : sorted_desc ps.
Hypothesis ps_positive : positive_costs ps.
Hypothesis v0_optimal :
  forall s, s `sublist_of` ps -> (sum_cost s <= b)%Q -> (sum_impact s <= v0)%Q.

Lemma again_inv_perm self pq pq' :
  pq ≡ₚ pq' -> again_inv ps b bs0 v0 n0 self pq ->
  again_inv ps b bs0 v0 n0 self pq'.
Proof.
  intros Hperm (Hs & Hbs & Hbv & Hn0 & Hn).
  split; [now apply (search_inv_perm ps b self pq)|].
  split; [assumption|]. split; [assumption|]. split; [assumption|].
  destruct Hn as [Hn|Hn]; [left|now right].
  intros ->. apply Hn. now apply Permutation_nil_r.
Qed.

Lemma again_inv_safe self pq cur :
  again_inv ps b bs0 v0 n0 self (cur :: pq) ->
  exists r, process_node self pq cur = Ok r.
Proof. intros [Hs _]. now apply (search_inv_safe ps b ps_positive). Qed.

Lemma again_inv_step self pq cur self' pq' a :
  again_inv ps b bs0 v0 n0 self (cur :: pq) ->
  process_node self pq cur = Ok (self', pq', a) ->
  again_inv ps b bs0 v0 n0 self' pq'.
Proof.
  intros (Hs & Hbs & Hbv & Hn0 & _) Hstep.
  pose proof (search_inv_step ps b ps_sorted ps_positive _ _ _ _ _ _ Hs Hstep)
    as Hs'.
  split; [exact Hs'|].
  apply process_node_spec in Hstep as (Hne & _ & _ & _ & Ha).
  assert (Hkeep : best_solution self' = best_solution self /\
                  best_value self' = best_value self).
  { destruct a.
    - now destruct Ha as (_ & _ & ? & ?).
    - now destruct Ha as (_ & _ & _ & ? & ?).
    - destruct Ha as (_ & _ & _ & _ & Ha).
      destruct (Qltb (best_value self) (total_impact cur)) eqn:E; [|exact Ha].
      exfalso. apply Qltb_true in E. rewrite Hbv in E.
      destruct Ha as [_ Hv].
      destruct Hs' as (_ & _ & _ & (s & Hsub & Hc & Hi) & _).
      specialize (v0_optimal s Hsub Hc). rewrite Hi, Hv in v0_optimal. lra.
    - now destruct Ha as (? & ? & ? & ? & ? & _ & _ & _ & ? & ? & _). }
  destruct Hkeep as [-> ->].
  split; [assumption|]. split; [assumption|]. split; [lia|]. right. lia.
Qed.

End Again.

(** The queue that [solve] starts from satisfies the invariant of the
    search, whatever incumbent the solver holds. *)
Lemma search_inv_root ps b self rb :
  sorted_desc ps -> positive_costs ps ->
  projects self = ps -> budget self = b ->
  (exists s, s `sublist_of` ps /\ (sum_cost s <= b)%Q /\
             (sum_impact s == best_value self)%Q) ->
  match best_solution self with
  | Some node =>
      total_impact node = best_value self /\ (total_cost node <= b)%Q
  | None => best_value self = 0%Q
  end ->
  calculate_bound self root = Ok rb ->
  search_inv ps b self (heappush [] (set_bound root rb)).
Proof.
  intros Hsorted Hpos Hp Hb Hatt Hbest Hrb.
  split; [assumption|]. split; [assumption|]. split.
  { rewrite heappush_perm. constructor; [|constructor].
    split; simpl; [lia|]. exists [].
    split; [apply sublist_nil_l|]. split; reflexivity. }
  split; [assumption|]. split; [assumption|].
  intros sel Hsel Hc _. exists (set_bound root rb).
  split; [rewrite heappush_perm; apply list_elem_of_here|].
  exists [], sel. simpl.
  split; [reflexivity|]. split; [apply sublist_nil_l|].
  split; [exact Hsel|]. split; [reflexivity|]. split; [reflexivity|].
  eapply (child_bound_sound _ b Hsorted Hpos self root rb [] sel);
    trivial; reflexivity.
Qed.

(** [solve] from a solver that satisfies the start of the search. *)
Lemma solve_search_inv ps b self t0 t1 :
  sorted_desc ps -> positive_costs ps -> (0 < b)%Q ->
  projects self = ps -> budget self = b ->
  (exists s, s `sublist_of` ps /\ (sum_cost s <= b)%Q /\
             (sum_impact s == best_value self)%Q) ->
  match best_solution self with
  | Some node =>
      total_impact node = best_value self /\ (total_cost node <= b)%Q
  | None => best_value self = 0%Q
  end ->
  exists rb s r,
    calculate_bound self root = Ok rb /\
    solve_loop (solve_fuel self) self (heappush [] (set_bound root rb))
    = Some (Ok s) /\
    prepare_result (set_execution_time s (t1 - t0)) = Ok r /\
    solve self t0 t1 = Some (Ok (r, set_execution_time s (t1 - t0))) /\
    search_inv ps b s [].
Proof.
  intros Hsorted Hpos Hb Hp Hbud Hatt Hbest.
  destruct (calculate_bound_nonzero_costs self root) as [rb Hrb].
  { rewrite Hp. now apply positive_costs_nonzero. }
  assert (Hl : exists lr,
             solve_loop (solve_fuel self) self
               (heappush [] (set_bound root rb)) = Some lr).
  { destruct (solve_total self t0 t1) as [r0 H0]. revert H0.
    unfold solve. rewrite Hrb.
    destruct (solve_loop _ _ _) as [lr|]; [eauto|discriminate]. }
  destruct Hl as [lr Hloop]. pose proof Hloop as Hloop'.
  apply (solve_loop_safe (search_inv ps b)
           (search_inv_perm _ _)
           (search_inv_step _ _ Hsorted Hpos)
           (search_inv_safe _ _ Hpos)) in Hloop'
    as (s & -> & Hs); [|now apply search_inv_root].
  assert (Hr : exists r, prepare_result (set_execution_time s (t1 - t0)) = Ok r).
  { unfold prepare_result. simpl.
    destruct (best_solution s); [|eauto].
    destruct Hs as (_ & -> & _). rewrite py_div_ok by lra. simpl. eauto. }
  destruct Hr as [r Hr].
  exists rb, s, r. split; [exact Hrb|]. split; [exact Hloop|].
  split; [exact Hr|]. split; [|exact Hs].
  unfold solve. now rewrite Hrb, Hloop, Hr.
Qed.

Lemma prepare_result_nodes_expanded self r :
  prepare_result self = Ok r ->
  m_nodes_expanded (result_metrics r) = nodes_expanded self.
Proof.
  unfold prepare_result. destruct (best_solution self); simpl.
  - destruct (py_div _ _); [|discriminate]. simpl. now intros [= <-].
  - now intros [= <-].
Qed.

(** The solution of a result depends on the incumbent, the projects
    and the budget only. *)
Lemma prepare_result_solution self self' r r' :
  projects self' = projects self -> budget self' = budget self ->
  best_solution self' = best_solution self ->
  prepare_result self = Ok r -> prepare_result self' = Ok r' ->
  result_solution r' = result_solution r.
Proof.
  unfold prepare_result. intros -> -> ->.
  destruct (best_solution self); simpl.
  - destruct (py_div _ _); [|discriminate]. simpl.
    now intros [= <-] [= <-].
  - now intros [= <-] [= <-].
Qed.

(** X18. Solving twice on the same solver object, when no project is
    free: the second call returns the same solution as the first (the
    same projects, cost and impact), but its counters continue from
    those of the first call, so that it reports more expanded nodes. *)
Theorem solve_again_same_solution ps b t0 t1 t0' t1' :
  ps <> [] -> (0 < b)%Q -> positive_costs ps ->
  exists r1 self1 r2 self2,
    run ps b t0 t1 = Some (Ok (r1, self1)) /\
    solve self1 t0' t1' = Some (Ok (r2, self2)) /\
    result_solution r2 = result_solution r1 /\
    (m_nodes_expanded (result_metrics r1)
     < m_nodes_expanded (result_metrics r2))%nat.
Proof.
  intros Hne Hb Hpos.
  assert (Hsorted : sorted_desc (sort_by_efficiency ps))
    by apply sort_by_efficiency_sorted.
  assert (Hpos' : positive_costs (sort_by_efficiency ps))
    by (unfold positive_costs; now rewrite sort_by_efficiency_perm).
  destruct (solve_search_inv (sort_by_efficiency ps) b (fresh_solver ps b)
              t0 t1 Hsorted Hpos' Hb eq_refl eq_refl)
    as (rb1 & s1 & r1 & _ & _ & Hr1 & Hrun1 & Hs1).
  { exists []. split; [apply sublist_nil_l|]. simpl. split; [lra|reflexivity]. }
  { reflexivity. }
  set (self1 := set_execution_time s1 (t1 - t0)) in *.
  assert (Hinv1 : search_inv (sort_by_efficiency ps) b self1 []) by exact Hs1.
  destruct Hinv1 as (Hp1 & Hb1 & _ & Hatt1 & Hbest1 & Hcov1).
  assert (Hopt : forall s, s `sublist_of` sort_by_efficiency ps ->
                   (sum_cost s <= b)%Q -> (sum_impact s <= best_value self1)%Q).
  { intros sel Hsel Hc.
    destruct (Qlt_le_dec (best_value self1) (sum_impact sel)) as [Hlt|]; trivial.
    destruct (Hcov1 sel Hsel Hc Hlt) as (node & Hin & _).
    now apply elem_of_nil in Hin. }
  destruct (calculate_bound_nonzero_costs self1 root) as [rb2 Hrb2].
  { rewrite Hp1. now apply positive_costs_nonzero. }
  assert (Hl : exists lr,
             solve_loop (solve_fuel self1) self1
               (heappush [] (set_bound root rb2)) = Some lr).
  { destruct (solve_total self1 t0' t1') as [r0 H0]. revert H0.
    unfold solve. rewrite Hrb2.
    destruct (solve_loop _ _ _) as [lr|]; [eauto|discriminate]. }
  destruct Hl as [lr Hloop]. pose proof Hloop as Hloop'.
  apply (solve_loop_safe
           (again_inv (sort_by_efficiency ps) b (best_solution self1)
                      (best_value self1) (nodes_expanded self1))
           (again_inv_perm _ _ _ _ _)
           (again_inv_step _ _ _ _ _ Hsorted Hpos' Hopt)
           (again_inv_safe _ _ _ _ _ Hpos')) in Hloop'
    as (s2 & -> & ((Hp2 & Hb2 & _) & Hbs2 & Hbv2 & _ & Hn2)).
  - destruct Hn2 as [Hn2|Hn2]; [congruence|].
    set (self2 := set_execution_time s2 (t1' - t0')).
    assert (Hr2 : exists r2, prepare_result self2 = Ok r2).
    { unfold prepare_result. simpl.
      destruct (best_solution s2); [|eauto].
      rewrite Hb2, py_div_ok by lra. simpl. eauto. }
    destruct Hr2 as [r2 Hr2].
    exists r1, self1, r2, self2.
    split; [unfold run; rewrite (init_ok ps b Hne Hb); exact Hrun1|].
    split; [unfold solve; rewrite Hrb2, Hloop; cbv zeta; fold self2;
            now rewrite Hr2|].
    split.
    + apply (prepare_result_solution self1 self2); trivial.
      * transitivity (sort_by_efficiency ps); [exact Hp2|now symmetry].
      * transitivity b; [exact Hb2|now symmetry].
    + rewrite (prepare_result_nodes_expanded _ _ Hr1),
        (prepare_result_nodes_expanded _ _ Hr2). exact Hn2.
  - split; [now apply search_inv_root|].
    split; [reflexivity|]. split; [reflexivity|]. split; [lia|].
    left. intros E. apply (f_equal length) in E.
    rewrite (Permutation_length (heappush_perm _ _)) in E. discriminate.
Qed.

(** ** [heapq] keeps the queue in heap order *)

Lemma heap_child_parent pos : (0 < pos)%nat -> heap_child ((pos - 1) / 2) pos.
Proof.
  intros H. unfold heap_child.
  pose proof (Nat.div_mod_eq (pos - 1) 2) as E.
  pose proof (Nat.mod_upper_bound (pos - 1) 2) as U. lia.
Qed.

Lemma heap_child_unique p p' c : heap_child p c -> heap_child p' c -> p = p'.
Proof. unfold heap_child. lia. Qed.

Lemma exchange_lookup heap i j x y :
  heap !! i = Some x -> heap !! j = Some y -> i <> j ->
  exchange heap i j !! j = Some x /\
  exchange heap i j !! i = Some y /\
  (forall k, k <> i -> k <> j -> exchange heap i j !! k = heap !! k) /\
  length (exchange heap i j) = length heap.
Proof.
  intros Hi Hj Hne. unfold exchange. rewrite Hi, Hj.
  pose proof (lookup_lt_Some _ _ _ Hi). pose proof (lookup_lt_Some _ _ _ Hj).
  split; [|split; [|split]].
  - apply list_lookup_insert_eq. now rewrite length_insert.
  - rewrite list_lookup_insert_ne by congruence.
    now apply list_lookup_insert_eq.
  - intros k Hki Hkj. now rewrite !list_lookup_insert_ne by congruence.
  - now rewrite !length_insert.
Qed.

(** An item that is in order with its parent and its children fills
    the hole. *)
Lemma heap_hole_fill heap pos :
  heap_hole heap pos ->
  (forall c, heap_child pos c -> ordered_at heap pos c) ->
  (forall p, heap_child p pos -> ordered_at heap p pos) ->
  heap_ordered heap.
Proof.
  intros [Ha _] Hc Hp i c Hic.
  destruct (decide (i = pos)) as [->|Hi]; [now apply Hc|].
  destruct (decide (c = pos)) as [->|Hc']; [now apply Hp|].
  now apply Ha.
Qed.

Lemma siftdown_S fuel heap startpos pos :
  siftdown (S fuel) heap startpos pos
  = if (startpos <? pos)%nat then
      match heap !! pos, heap !! ((pos - 1) / 2)%nat with
      | Some newitem, Some parent =>
          if node_lt newitem parent
          then siftdown fuel (exchange heap pos ((pos - 1) / 2)) startpos
                        ((pos - 1) / 2)
          else heap
      | _, _ => heap
      end
    else heap.
Proof. reflexivity. Qed.

Lemma siftdown_ordered fuel : forall heap pos,
  heap_hole heap pos ->
  (forall c, heap_child pos c -> ordered_at heap pos c) ->
  (pos <= fuel)%nat ->
  heap_ordered (siftdown fuel heap 0 pos).
Proof.
  induction fuel as [|fuel IH]; intros heap pos Hh Hc Hf.
  { simpl. apply (heap_hole_fill heap pos); trivial.
    intros p Hp. unfold heap_child in Hp. lia. }
  rewrite siftdown_S. destruct (0 <? pos)%nat eqn:E.
  2:{ apply Nat.ltb_ge in E. apply (heap_hole_fill heap pos); trivial.
      intros p Hp. unfold heap_child in Hp. lia. }
  apply Nat.ltb_lt in E.
  pose proof (heap_child_parent pos E) as Hpar.
  set (parentpos := ((pos - 1) / 2)%nat) in *.
  assert (Hlt : (parentpos < pos)%nat) by (unfold heap_child in Hpar; lia).
  destruct (heap !! pos) as [newitem|] eqn:Hpos.
  2:{ apply (heap_hole_fill heap pos); trivial.
      intros p _ y x _ Hx. congruence. }
  destruct (heap !! parentpos) as [parent|] eqn:Hparent.
  2:{ apply (heap_hole_fill heap pos); trivial.
      intros p Hp y x Hy _.
      rewrite (heap_child_unique _ _ _ Hp Hpar) in Hy. congruence. }
  destruct (node_lt newitem parent) eqn:Hcmp.
  2:{ apply (heap_hole_fill heap pos); trivial.
      intros p Hp y x Hy Hx.
      rewrite (heap_child_unique _ _ _ Hp Hpar) in Hy.
      apply Qltb_false in Hcmp. congruence. }
  apply Qltb_true in Hcmp.
  destruct (exchange_lookup heap pos parentpos newitem parent Hpos Hparent)
    as (Ex1 & Ex2 & Ex3 & _); [lia|].
  destruct Hh as [Ha Hb].
  apply IH; [split| |lia].
  - intros i c Hic Hi Hc' y x.
    assert (Hcp : c <> pos).
    { intros ->. apply Hi. exact (heap_child_unique _ _ _ Hic Hpar). }
    rewrite (Ex3 c) by assumption.
    destruct (decide (i = pos)) as [->|Hip].
    + rewrite Ex2. intros [= <-] Hx. exact (Hb _ _ Hpar Hic _ _ Hparent Hx).
    + rewrite (Ex3 i) by assumption. now apply Ha.
  - intros p c Hp Hpc y x.
    assert (Hpp : p <> pos /\ p <> parentpos)
      by (unfold heap_child in Hp; lia).
    destruct Hpp as [Hpp1 Hpp2]. rewrite (Ex3 p) by assumption. intros Hy.
    destruct (decide (c = pos)) as [->|Hcp].
    + rewrite Ex2. intros [= <-].
      apply (Ha _ _ Hp Hpp1 ltac:(lia) _ _ Hy Hparent).
    + assert (c <> parentpos) by (unfold heap_child in Hpc; lia).
      rewrite (Ex3 c) by assumption. intros Hx.
      pose proof (Ha _ _ Hp Hpp1 ltac:(lia) _ _ Hy Hparent).
      pose proof (Ha _ _ Hpc ltac:(lia) Hcp _ _ Hparent Hx). lra.
  - intros c Hpc y x. rewrite Ex1. intros [= <-].
    destruct (decide (c = pos)) as [->|Hcp].
    + rewrite Ex2. intros [= <-]. lra.
    + assert (c <> parentpos) by (unfold heap_child in Hpc; lia).
      rewrite (Ex3 c) by assumption. intros Hx.
      pose proof (Ha _ _ Hpc ltac:(lia) Hcp _ _ Hparent Hx). lra.
Qed.

Lemma heappush_ordered heap item :
  heap_ordered heap -> heap_ordered (heappush heap item).
Proof.
  intros Hh. unfold heappush. rewrite length_app. simpl.
  replace (length heap + 1 - 1)%nat with (length heap) by lia.
  apply siftdown_ordered; [split| |lia].
  - intros i c Hic Hi Hc y x Hy Hx.
    pose proof (lookup_lt_Some _ _ _ Hy) as Li.
    pose proof (lookup_lt_Some _ _ _ Hx) as Lc.
    rewrite length_app in Li, Lc. simpl in Li, Lc.
    rewrite lookup_app_l in Hy, Hx by lia.
    exact (Hh _ _ Hic _ _ Hy Hx).
  - intros p c _ Hc y x _ Hx.
    apply lookup_lt_Some in Hx. rewrite length_app in Hx. simpl in Hx.
    unfold heap_child in Hc. lia.
  - intros c Hc y x _ Hx.
    apply lookup_lt_Some in Hx. rewrite length_app in Hx. simpl in Hx.
    unfold heap_child in Hc. lia.
Qed.

Lemma siftup_loop_S fuel heap pos :
  siftup_loop (S fuel) heap pos
  = if (2 * pos + 1 <? length heap)%nat then
      let childpos' :=
        match heap !! (2 * pos + 1)%nat, heap !! (2 * pos + 1 + 1)%nat with
        | Some l, Some r =>
            if negb (node_lt l r) then (2 * pos + 1 + 1)%nat
            else (2 * pos + 1)%nat
        | _, _ => (2 * pos + 1)%nat
        end in
      siftup_loop fuel (exchange heap pos childpos') childpos'
    else (heap, pos).
Proof. reflexivity. Qed.

(** The child that [_siftup] moves up is one whose bound is largest. *)
Lemma siftup_child (heap : list Node) (pos : nat) (l : Node) :
  heap !! (2 * pos + 1)%nat = Some l ->
  exists c' m,
    match heap !! (2 * pos + 1)%nat, heap !! (2 * pos + 1 + 1)%nat with
    | Some l, Some r =>
        if negb (node_lt l r) then (2 * pos + 1 + 1)%nat
        else (2 * pos + 1)%nat
    | _, _ => (2 * pos + 1)%nat
    end = c' /\
    heap_child pos c' /\ heap !! c' = Some m /\
    forall c x, heap_child pos c -> heap !! c = Some x ->
                (bound x <= bound m)%Q.
Proof.
  intros Hl. rewrite Hl.
  destruct (heap !! (2 * pos + 1 + 1)%nat) as [r|] eqn:Hr.
  - destruct (node_lt l r) eqn:Hcmp; simpl.
    + apply Qltb_true in Hcmp.
      exists (2 * pos + 1)%nat, l. split; [reflexivity|].
      split; [now left|]. split; [assumption|].
      intros c x [->| ->] Hx.
      * rewrite Hl in Hx. injection Hx as <-. lra.
      * replace (2 * pos + 2)%nat with (2 * pos + 1 + 1)%nat in Hx by lia.
        rewrite Hr in Hx. injection Hx as <-. lra.
    + apply Qltb_false in Hcmp.
      exists (2 * pos + 1 + 1)%nat, r. split; [reflexivity|].
      split; [right; lia|]. split; [assumption|].
      intros c x [->| ->] Hx.
      * rewrite Hl in Hx. now injection Hx as <-.
      * replace (2 * pos + 2)%nat with (2 * pos + 1 + 1)%nat in Hx by lia.
        rewrite Hr in Hx. injection Hx as <-. lra.
  - exists (2 * pos + 1)%nat, l. split; [reflexivity|].
    split; [now left|]. split; [assumption|].
    intros c x [->| ->] Hx.
    + rewrite Hl in Hx. injection Hx as <-. lra.
    + replace (2 * pos + 2)%nat with (2 * pos + 1 + 1)%nat in Hx by lia.
      congruence.
Qed.

Lemma siftup_loop_hole fuel : forall heap pos heap' pos',
  heap_hole heap pos ->
  (pos <= length heap)%nat -> (length heap <= pos + fuel)%nat ->
  siftup_loop fuel heap pos = (heap', pos') ->
  heap_hole heap' pos' /\
  (forall c, heap_child pos' c -> ordered_at heap' pos' c) /\
  length heap' = length heap /\ (pos' <= length heap)%nat.
Proof.
  induction fuel as [|fuel IH]; intros heap pos heap' pos' Hh Hle Hf.
  { simpl. intros [= <- <-]. split; [assumption|]. split; [|split; trivial].
    intros c Hc y x _ Hx. apply lookup_lt_Some in Hx.
    unfold heap_child in Hc. lia. }
  rewrite siftup_loop_S.
  destruct (2 * pos + 1 <? length heap)%nat eqn:E.
  2:{ apply Nat.ltb_ge in E. intros [= <- <-].
      split; [assumption|]. split; [|split; trivial].
      intros c Hc y x _ Hx. apply lookup_lt_Some in Hx.
      unfold heap_child in Hc. lia. }
  apply Nat.ltb_lt in E.
  destruct (lookup_lt_is_Some_2 heap (2 * pos + 1)%nat E) as [l Hl].
  destruct (siftup_child heap pos l Hl) as (c' & m & -> & Hc' & Hm & Hmax).
  cbv zeta.
  assert (Lc : (c' < length heap)%nat) by now apply lookup_lt_Some in Hm.
  destruct (lookup_lt_is_Some_2 heap pos) as [item Hitem].
  { unfold heap_child in Hc'. lia. }
  assert (Hne : pos <> c') by (unfold heap_child in Hc'; lia).
  destruct (exchange_lookup heap pos c' item m Hitem Hm Hne)
    as (Ex1 & Ex2 & Ex3 & Ex4).
  intros Hrec. apply IH in Hrec.
  - rewrite Ex4 in Hrec. exact Hrec.
  - destruct Hh as [Ha Hb]. split.
    + intros i c Hic Hi Hc y x.
      destruct (decide (i = pos)) as [->|Hip].
      * rewrite Ex2. intros [= <-].
        assert (c <> pos) by (unfold heap_child in Hic; lia).
        rewrite (Ex3 c) by assumption. intros Hx. now apply (Hmax c).
      * rewrite (Ex3 i) by assumption. intros Hy.
        destruct (decide (c = pos)) as [->|Hcp].
        -- rewrite Ex2. intros [= <-].
           exact (Hb _ _ Hic Hc' _ _ Hy Hm).
        -- rewrite (Ex3 c) by assumption. intros Hx.
           exact (Ha _ _ Hic Hip Hcp _ _ Hy Hx).
    + intros p c Hp Hc y x.
      rewrite (heap_child_unique _ _ _ Hp Hc'), Ex2. intros [= <-].
      assert (c <> pos /\ c <> c') by (unfold heap_child in Hc, Hc'; lia).
      rewrite (Ex3 c) by tauto. intros Hx.
      apply (Ha _ _ Hc ltac:(lia) ltac:(tauto) _ _ Hm Hx).
  - rewrite Ex4. lia.
  - rewrite Ex4. unfold heap_child in Hc'. lia.
Qed.

Lemma siftup_ordered heap :
  heap_hole heap 0 -> heap_ordered (siftup heap 0).
Proof.
  intros Hh. unfold siftup.
  destruct (siftup_loop (length heap) heap 0) as [heap' pos'] eqn:E.
  apply siftup_loop_hole in E as (Hh' & Hc & Hlen & Hpos); [|trivial|lia|lia].
  now apply siftdown_ordered.
Qed.

(** The first item of a heap in order has the largest bound. *)
Lemma heap_ordered_root heap r :
  heap_ordered heap -> heap !! 0%nat = Some r ->
  forall i x, heap !! i = Some x -> (bound x <= bound r)%Q.
Proof.
  intros Hh Hr i. induction i as [i IH] using lt_wf_ind. intros x Hx.
  destruct (decide (i = 0)%nat) as [->|Hi].
  { rewrite Hr in Hx. injection Hx as <-. lra. }
  pose proof (heap_child_parent i ltac:(lia)) as Hp.
  set (p := ((i - 1) / 2)%nat) in *.
  assert (Hlt : (p < i)%nat) by (unfold heap_child in Hp; lia).
  destruct (lookup_lt_is_Some_2 heap p) as [y Hy].
  { apply lookup_lt_Some in Hx. lia. }
  pose proof (IH p Hlt y Hy). pose proof (Hh _ _ Hp _ _ Hy Hx). lra.
Qed.

(** [heappop] returns a node whose bound is largest and leaves the
    queue in heap order. *)
Lemma heappop_ordered heap item heap' :
  heap_ordered heap -> heappop heap = Some (item, heap') ->
  heap_ordered heap' /\ Forall (fun x => (bound x <= bound item)%Q) heap'.
Proof.
  intros Hh Hpop. split.
  - revert Hpop. unfold heappop.
    destruct heap as [|lastelt l _] using rev_ind; [discriminate|].
    rewrite last_snoc, removelast_last.
    destruct l as [|returnitem rest]; intros [= <- <-].
    { intros i c _ y x Hy. now rewrite lookup_nil in Hy. }
    apply siftup_ordered. split.
    + intros i c Hic Hi Hc y x Hy Hx.
      pose proof (lookup_lt_Some _ _ _ Hy) as Li.
      pose proof (lookup_lt_Some _ _ _ Hx) as Lc. simpl in Li, Lc.
      rewrite lookup_cons_ne_0 in Hy, Hx by assumption.
      apply (Hh i c Hic).
      * rewrite lookup_app_l by (simpl; lia).
        now rewrite lookup_cons_ne_0 by assumption.
      * rewrite lookup_app_l by (simpl; lia).
        now rewrite lookup_cons_ne_0 by assumption.
    + intros p c Hp. unfold heap_child in Hp. lia.
  - pose proof (heappop_perm _ _ _ Hpop) as Hperm.
    assert (H0 : heap !! 0%nat = Some item).
    { revert Hpop. unfold heappop.
      destruct heap as [|lastelt l _] using rev_ind; [discriminate|].
      rewrite last_snoc, removelast_last.
      destruct l as [|returnitem rest]; now intros [= <- <-]. }
    assert (Hall : Forall (fun x => (bound x <= bound item)%Q) heap).
    { apply Forall_forall. intros x Hx.
      apply list_elem_of_lookup_1 in Hx as [i Hi].
      exact (heap_ordered_root heap item Hh H0 i x Hi). }
    rewrite Hperm in Hall. now apply Forall_cons in Hall as [_ Hall].
Qed.

(** ** Best first *)

Lemma heap_ordered_nil : heap_ordered [].
Proof. intros i c _ y x Hy. now rewrite lookup_nil in Hy. Qed.

Lemma queue_after_ordered ops : heap_ordered (queue_after ops).
Proof.
  unfold queue_after. induction ops as [|op ops IH] using rev_ind.
  - apply heap_ordered_nil.
  - rewrite foldl_app. simpl. destruct op as [item|].
    + now apply heappush_ordered.
    + destruct (heappop _) as [[item heap']|] eqn:Hpop; [|assumption].
      now apply (heappop_ordered _ _ _ IH Hpop).
Qed.

(** X19. With [Node.__lt__] the queue of [heapq] is a max-queue on the
    bound: after any pushes and pops, [heappop] returns a node whose
    bound is at least that of every node it leaves in the queue, and
    it loses and invents no node. *)
Theorem heappop_largest_bound ops item rest :
  heappop (queue_after ops) = Some (item, rest) ->
  queue_after ops ≡ₚ item :: rest /\
  Forall (fun node => (bound node <= bound item)%Q) rest.
Proof.
  intros Hpop. split; [now apply heappop_perm|].
  now apply (heappop_ordered _ _ _ (queue_after_ordered ops) Hpop).
Qed.

Lemma push_child_ordered self pq child self' pq' :
  heap_ordered pq -> push_child self pq child = Ok (self', pq') ->
  heap_ordered pq'.
Proof.
  intros Hh Hpush.
  apply push_child_spec in Hpush as (b & _ & _ & _ & _ & [[-> _]|[-> _]]);
    [assumption|now apply heappush_ordered].
Qed.

Lemma process_node_ordered self pq cur self' pq' a :
  heap_ordered pq -> process_node self pq cur = Ok (self', pq', a) ->
  heap_ordered pq'.
Proof.
  intros Hh. unfold process_node.
  destruct (should_prune (count_node self cur) cur) as [s1 [p r]].
  destruct p; [now intros [= <- <- <-]|].
  destruct (level cur =? n_projects s1)%nat; [now intros [= <- <- <-]|].
  destruct (projects s1 !! level cur) as [project|]; [|discriminate].
  destruct (push_child s1 pq (left_child cur project)) as [[s2 pq2]|e] eqn:Hl;
    [|discriminate].
  cbn [mbind res_bind].
  destruct (push_child s2 pq2 (right_child cur)) as [[s3 pq3]|e] eqn:Hr;
    [|discriminate].
  cbn [mbind res_bind]. intros [= <- <- <-].
  eapply push_child_ordered; [|exact Hr].
  eapply push_child_ordered; [|exact Hl]. assumption.
Qed.

(** When no node of the queue can beat the incumbent, the loop only
    drains the queue. *)
Lemma solve_trace_drain fuel : forall self pq,
  Forall (fun node => is_feasible self node = true /\
                      (bound node <= best_value self)%Q) pq ->
  exists n, solve_trace fuel self pq = replicate n PrunedBound.
Proof.
  induction fuel as [|fuel IH]; intros self pq Hq; simpl; [now exists 0%nat|].
  destruct (heappop pq) as [[cur pq1]|] eqn:Hpop; [|now exists 0%nat].
  apply heappop_perm in Hpop. rewrite Hpop in Hq.
  apply Forall_cons in Hq as [[Hf Hb] Hq].
  destruct (process_node self pq1 cur) as [[[s2 pq2] a]|e] eqn:Hstep;
    [|now exists 0%nat].
  apply process_node_spec in Hstep as (_ & _ & _ & Hbud & Ha).
  destruct a.
  - destruct Ha as (_ & Hinf & _). congruence.
  - destruct Ha as (-> & _ & _ & _ & Hv).
    destruct (IH s2 pq1) as [n Hn].
    { eapply Forall_impl; [exact Hq|]. intros node. simpl.
      now rewrite (is_feasible_frame self s2), Hv. }
    exists (S n). simpl. now rewrite Hn.
  - destruct Ha as (_ & _ & _ & Hlt & _). lra.
  - destruct Ha as (? & ? & ? & ? & ? & _ & _ & Hlt & _). lra.
Qed.

Lemma calculate_bound_leaf self node b :
  level node = n_projects self -> calculate_bound self node = Ok b ->
  b = total_impact node.
Proof.
  unfold calculate_bound, n_projects. intros ->. rewrite drop_all. simpl.
  now intros [= <-].
Qed.

Lemma solve_trace_shape fuel : forall self pq,
  heap_ordered pq ->
  Forall (fun node =>
            is_feasible self node = true /\
            (level node = n_projects self -> bound node = total_impact node))
         pq ->
  exists k leaf n,
    solve_trace fuel self pq
    = replicate k Expanded ++ leaf ++ replicate n PrunedBound /\
    (leaf = [] \/ leaf = [Leaf]).
Proof.
  induction fuel as [|fuel IH]; intros self pq Hh Hq; simpl.
  { exists 0%nat, [], 0%nat. split; [reflexivity|now left]. }
  destruct (heappop pq) as [[cur pq1]|] eqn:Hpop.
  2:{ exists 0%nat, [], 0%nat. split; [reflexivity|now left]. }
  destruct (heappop_ordered _ _ _ Hh Hpop) as [Hh1 Hmax].
  apply heappop_perm in Hpop. rewrite Hpop in Hq.
  apply Forall_cons in Hq as [[Hcur Hleaf] Hq].
  destruct (process_node self pq1 cur) as [[[s2 pq2] a]|e] eqn:Hstep.
  2:{ exists 0%nat, [], 0%nat. split; [reflexivity|now left]. }
  pose proof (process_node_ordered _ _ _ _ _ _ Hh1 Hstep) as Hh2.
  apply process_node_spec in Hstep as (_ & _ & Hp & Hbud & Ha).
  assert (Hn : n_projects s2 = n_projects self)
    by (unfold n_projects; now rewrite Hp).
  assert (Hdrain : (bound cur <= best_value s2)%Q -> pq2 = pq1 ->
            exists n, solve_trace fuel s2 pq2 = replicate n PrunedBound).
  { intros Hb ->. apply solve_trace_drain.
    apply Forall_forall. intros node Hin.
    eapply Forall_forall in Hq; [|exact Hin].
    eapply Forall_forall in Hmax; [|exact Hin]. simpl in Hq, Hmax.
    rewrite (is_feasible_frame self s2) by assumption.
    split; [tauto|lra]. }
  destruct a.
  - destruct Ha as (_ & Hinf & _). congruence.
  - destruct Ha as (-> & _ & Hb & _ & Hv).
    destruct Hdrain as [n Hdrain]; [now rewrite Hv|reflexivity|].
    exists 0%nat, [], (S n). simpl. rewrite Hdrain.
    split; [reflexivity|now left].
  - destruct Ha as (-> & Hlv & _ & Hlt & Hup).
    rewrite <- (Hleaf Hlv) in Hup.
    assert (E : Qltb (best_value self) (bound cur) = true)
      by now apply Qltb_true.
    rewrite E in Hup. destruct Hup as [_ Hv].
    destruct Hdrain as [n Hdrain]; [rewrite Hv; lra|reflexivity|].
    exists 0%nat, [Leaf], n. simpl. rewrite Hdrain.
    split; [reflexivity|now right].
  - destruct Ha as (project & bl & br & kl & kr & _ & _ & _ & _ & _ & Hbl & Hbr
                    & Hkl & Hkr & Hperm).
    destruct (IH s2 pq2 Hh2) as (k & leaf & n & -> & Hshape).
    { rewrite Hperm, !Forall_app. rewrite Hn.
      assert (Hkept : forall child bc kc,
                calculate_bound self child = Ok bc -> kept self child bc kc ->
                Forall (fun node =>
                          is_feasible s2 node = true /\
                          (level node = n_projects self ->
                           bound node = total_impact node)) kc).
      { intros child bc kc Hbc [[-> _]|[-> [Hf _]]]; [constructor|].
        constructor; [|constructor].
        rewrite (is_feasible_frame self s2) by assumption.
        split; [exact Hf|]. simpl. intros Hl.
        now apply (calculate_bound_leaf self child). }
      split; [exact (Hkept _ _ _ Hbr Hkr)|]. split; [exact (Hkept _ _ _ Hbl Hkl)|].
      eapply Forall_impl; [exact Hq|]. intros node. simpl.
      now rewrite (is_feasible_frame self s2). }
    exists (S k), leaf, n. split; [reflexivity|assumption].
Qed.

(** X20. The search is best-first, and so it reaches at most one leaf:
    the iterations of the loop of a constructed solver are expansions,
    then at most one leaf, then prunings by bound only.  From the first
    leaf or the first pruning by bound on, the loop only drains the
    queue. *)
Theorem solve_reaches_at_most_one_leaf ps b self rb :
  init ps b = Ok self ->
  exists k leaf n,
    solve_trace (solve_fuel self) self (heappush [] (set_bound root rb))
    = replicate k Expanded ++ leaf ++ replicate n PrunedBound /\
    (leaf = [] \/ leaf = [Leaf]).
Proof.
  intros Hinit. apply solve_trace_shape.
  - apply heappush_ordered, heap_ordered_nil.
  - rewrite heappush_perm. constructor; [|constructor]. split.
    + revert Hinit. unfold init. destruct ps; [discriminate|].
      destruct (Qleb b 0) eqn:E; [discriminate|]. apply Qleb_false in E.
      intros [= <-]. apply Qleb_true. simpl. lra.
    + intros Hl. exfalso. revert Hinit Hl. unfold init.
      destruct ps as [|p ps]; [discriminate|].
      destruct (Qleb b 0); [discriminate|]. intros [= <-].
      unfold n_projects. cbn [projects].
      change (insert_desc p (sort_by_efficiency ps))
        with (sort_by_efficiency (p :: ps)).
      rewrite (Permutation_length (sort_by_efficiency_perm (p :: ps))).
      simpl. discriminate.
Qed.

(** ** The theorems at concrete inputs *)

Lemma scenario_E_positive : positive_costs scenario_E.
Proof. repeat constructor; vm_compute; discriminate. Qed.






Lemma run_exceptions_witness :
  ((exists msg, ZeroDivisionError = ValueError msg) /\
   (crash_instance = [] \/ (6 <= 0)%Q)) \/
  (ZeroDivisionError = ZeroDivisionError /\ crash_instance <> [] /\
   (0 < 6)%Q /\ Exists (fun p => (cost p == 0)%Q) crash_instance).
Proof.
  apply (run_exceptions crash_instance 6 0 1). vm_compute. reflexivity.
Defined.



Lemma solve_counters_bounded_witness :
  exists r self',
    run scenario_E 10 0 1 = Some (Ok (r, self')) /\
    (1 <= m_nodes_expanded (result_metrics r)
     <= 2 ^ S (length scenario_E) - 1)%nat /\
    (m_max_depth (result_metrics r) <= length scenario_E)%nat /\
    m_nodes_pruned_total (result_metrics r)
    = (m_nodes_pruned_infeasible (result_metrics r)
       + m_nodes_pruned_bound (result_metrics r))%nat.
Proof.
  eexists _, _. split; [vm_compute; reflexivity|].
  eapply (solve_counters_bounded scenario_E 10 0 1). vm_compute. reflexivity.
Defined.

Lemma popped_nodes_are_feasible_witness :
  PrunedInfeasible
  ∉ solve_trace (solve_fuel single_solver) single_solver
      (heappush [] (set_bound root 30)).
Proof.
  apply (popped_nodes_are_feasible single_project 100). reflexivity.
Defined.



Lemma run_sensitivity_analysis_raises_witness :
  run_sensitivity_analysis scenario_E 300 [10%Q; 0%Q; 16%Q] (fun _ => (0%Q, 1%Q))
  = Some (Raise (ValueError "Orçamento deve ser positivo")).
Proof.
  apply run_sensitivity_analysis_raises.
  - discriminate.
  - exact scenario_E_positive.
  - right. left. vm_compute. discriminate.
Defined.

Lemma retention_portfolio_solved_witness :
  exists r self',
    run retention_projects 300 0 1 = Some (Ok (r, self')) /\
    is_optimum retention_projects 300 (result_value r).
Proof.
  destruct (retention_portfolio_solved 300 0 1 eq_refl)
    as (r & self' & H1 & H2 & _).
  exists r, self'. now split.
Defined.


Lemma solve_again_same_solution_witness :
  exists r1 self1 r2 self2,
    run scenario_E 10 0 1 = Some (Ok (r1, self1)) /\
    solve self1 0 1 = Some (Ok (r2, self2)) /\
    result_solution r2 = result_solution r1 /\
    (m_nodes_expanded (result_metrics r1)
     < m_nodes_expanded (result_metrics r2))%nat.
Proof.
  apply solve_again_same_solution.
  - discriminate.
  - reflexivity.
  - exact scenario_E_positive.
Defined.

Lemma heappop_largest_bound_witness :
  exists item rest,
    heappop (queue_after queue_ops_instance) = Some (item, rest) /\
    queue_after queue_ops_instance ≡ₚ item :: rest /\
    Forall (fun node => (bound node <= bound item)%Q) rest.
Proof.
  eexists _, _. split; [vm_compute; reflexivity|].
  apply heappop_largest_bound. vm_compute. reflexivity.
Defined.

Lemma solve_reaches_at_most_one_leaf_witness :
  exists k leaf n,
    solve_trace (solve_fuel (fresh_solver scenario_E 10))
                (fresh_solver scenario_E 10)
                (heappush [] (set_bound root 16))
    = replicate k Expanded ++ leaf ++ replicate n PrunedBound /\
    (leaf = [] \/ leaf = [Leaf]).
Proof.
  apply (solve_reaches_at_most_one_leaf scenario_E 10). reflexivity.
Defined.
